(** * Lead scoring: rule layer, intent layer and score combiner

    A shallow embedding of the scoring engine of the Lead-scoring service
    ([services/ruleScoringService.js], [services/aiScoringService.js] and
    [services/scoringService.js]) together with the properties its
    specification states about it.

    The code is JavaScript, so the embedding is dynamically typed: leads and
    offers are values of [JSValue], operations that can raise return in the
    error monad [Res], and [try]/[catch] is [catch].  Strings are sequences
    of 8-bit code units, i.e. the Latin-1 fragment of JavaScript's UTF-16
    strings; on that fragment [toLowerCase], [trim] and the regular
    expression classes are the ones ECMAScript defines. *)

From Stdlib Require Import ZArith List String Ascii Bool Lia Permutation.
From Stdlib Require Import DecimalString.
Import ListNotations.

#[local] Set Warnings "-register-all".
Local Open Scope string_scope.
Local Open Scope Z_scope.

(** ** The JavaScript fragment the services use *)

Module JS.

(** Errors that can be thrown.  [AppError] is the class exported by
    [middleware/errorHandler.js]; [Error] is the built-in one, also used
    for whatever an AI provider's client raises (transport, authentication,
    response shape). *)
Inductive JSError : Type :=
| TypeError
| Error (message : string)
| AppError (message : string) (statusCode : Z).

(** A computation either returns or throws. *)
Inductive Res (A : Type) : Type :=
| Ok (a : A)
| Throw (e : JSError).
Arguments Ok {A} a.
Arguments Throw {A} e.

Definition bind {A B : Type} (m : Res A) (k : A -> Res B) : Res B :=
  match m with
  | Ok a => k a
  | Throw e => Throw e
  end.

(** [try { body } catch (error) { handler }] *)
Definition catch {A : Type} (body : Res A) (handler : JSError -> Res A) : Res A :=
  match body with
  | Ok a => Ok a
  | Throw e => handler e
  end.

Notation "x <- m ;; k" := (bind m (fun x => k))
  (at level 61, m at next level, right associativity).

(** Data values: what a lead or an offer loaded from storage or from JSON
    can be.  Numbers are kept as integers plus [VNaN]; the services only
    ever test them for truthiness or reject them as non-strings. *)
Inductive JSValue : Type :=
| VUndefined
| VNull
| VBool (b : bool)
| VNum (n : Z)
| VNaN
| VStr (s : string)
| VArr (elems : list JSValue)
| VObj (props : list (string * JSValue)).

(** ToBoolean. *)
Definition truthy (v : JSValue) : bool :=
  match v with
  | VUndefined | VNull | VNaN => false
  | VBool b => b
  | VNum n => negb (n =? 0)
  | VStr s => negb (s =? "")%string
  | VArr _ | VObj _ => true
  end.

(** [v === undefined || v === null], the test of [?.]. *)
Definition nullish (v : JSValue) : bool :=
  match v with
  | VUndefined | VNull => true
  | _ => false
  end.

Fixpoint lookup (k : string) (props : list (string * JSValue)) : JSValue :=
  match props with
  | [] => VUndefined
  | (k', v) :: rest => if (k =? k')%string then v else lookup k rest
  end.

(** Property read [v.k] for the data property names the services use
    ([name], [role], ..., [ideal_use_cases], [length]).  Reading a property
    of [undefined] or [null] throws; a primitive has no such data property
    except [length] on strings. *)
Definition get (v : JSValue) (k : string) : Res JSValue :=
  match v with
  | VUndefined | VNull => Throw TypeError
  | VObj props => Ok (lookup k props)
  | VStr s => Ok (if (k =? "length")%string then VNum (Z.of_nat (String.length s)) else VUndefined)
  | VArr l => Ok (if (k =? "length")%string then VNum (Z.of_nat (List.length l)) else VUndefined)
  | VBool _ | VNum _ | VNaN => Ok VUndefined
  end.

(** *** Characters *)

Definition code (c : ascii) : nat := nat_of_ascii c.

Definition between (lo hi : nat) (c : ascii) : bool :=
  (Nat.leb lo (code c) && Nat.leb (code c) hi)%bool.

(** Latin-1 upper-case letters: A-Z and U+00C0..U+00DE without U+00D7. *)
Definition isUpper (c : ascii) : bool :=
  (between 65 90 c || (between 192 222 c && negb (Nat.eqb (code c) 215)))%bool.

Definition lowerChar (c : ascii) : ascii :=
  if isUpper c then ascii_of_nat (code c + 32) else c.

(** Latin-1 lower-case letters whose upper case is again one Latin-1 code
    unit: a-z and U+00E0..U+00FE without U+00F7.  (U+00B5 and U+00FF have
    upper-case forms outside Latin-1 and U+00DF has a two-letter one; the
    services only upper-case the first letter of a matched intent word.) *)
Definition isLower (c : ascii) : bool :=
  (between 97 122 c || (between 224 254 c && negb (Nat.eqb (code c) 247)))%bool.

Definition upperChar (c : ascii) : ascii :=
  if isLower c then ascii_of_nat (code c - 32) else c.

(** WhiteSpace and LineTerminator code units below 256: TAB, LF, VT, FF,
    CR, SP and NBSP.  This is both what [trim] strips and what [\s]
    matches. *)
Definition isWhiteSpace (c : ascii) : bool :=
  (between 9 13 c || Nat.eqb (code c) 32 || Nat.eqb (code c) 160)%bool.

(** LineTerminator code units below 256: what [.] does not match. *)
Definition isLineTerminator (c : ascii) : bool :=
  (Nat.eqb (code c) 10 || Nat.eqb (code c) 13)%bool.

(** *** String methods *)

Fixpoint toLowerCase (s : string) : string :=
  match s with
  | EmptyString => EmptyString
  | String c s' => String (lowerChar c) (toLowerCase s')
  end.

Fixpoint toUpperCase (s : string) : string :=
  match s with
  | EmptyString => EmptyString
  | String c s' => String (upperChar c) (toUpperCase s')
  end.

Fixpoint startsWith (s p : string) {struct p} : bool :=
  match p, s with
  | EmptyString, _ => true
  | String _ _, EmptyString => false
  | String pc p', String c s' => (Ascii.eqb pc c && startsWith s' p')%bool
  end.

(** [s.includes(t)] *)
Fixpoint includes (s t : string) : bool :=
  (startsWith s t ||
   match s with
   | EmptyString => false
   | String _ s' => includes s' t
   end)%bool.

Fixpoint trimStart (s : string) : string :=
  match s with
  | EmptyString => EmptyString
  | String c s' => if isWhiteSpace c then trimStart s' else s
  end.

Fixpoint trimEnd (s : string) : string :=
  match s with
  | EmptyString => EmptyString
  | String c s' =>
      match trimEnd s' with
      | EmptyString => if isWhiteSpace c then EmptyString else String c EmptyString
      | t => String c t
      end
  end.

Definition trim (s : string) : string := trimEnd (trimStart s).

(** [s.charAt(0)] and [s.slice(1)] *)
Definition charAt0 (s : string) : string :=
  match s with
  | EmptyString => EmptyString
  | String c _ => String c EmptyString
  end.

Definition slice1 (s : string) : string :=
  match s with
  | EmptyString => EmptyString
  | String _ s' => s'
  end.

(** Method calls on a value that may not be a string: anything but a string
    has no [toLowerCase] or [trim], so the call throws. *)
Definition callToLowerCase (v : JSValue) : Res string :=
  match v with
  | VStr s => Ok (toLowerCase s)
  | _ => Throw TypeError
  end.

Definition callTrim (v : JSValue) : Res string :=
  match v with
  | VStr s => Ok (trim s)
  | _ => Throw TypeError
  end.

(** *** Conversion to string, as in template literals and [join] *)

Definition showZ (n : Z) : string := NilZero.string_of_int (Z.to_int n).

Fixpoint joinStrings (sep : string) (parts : list string) : string :=
  match parts with
  | [] => ""
  | [p] => p
  | p :: rest => p ++ sep ++ joinStrings sep rest
  end.

(** Whether an object has an own property of that name. *)
Definition hasOwn (k : string) (props : list (string * JSValue)) : bool :=
  existsb (fun p => (fst p =? k)%string) props.

(** ToString.  A number is printed in full, as JavaScript does below
    10^21.  An array is converted as by [join(',')].  An object is
    converted through its [toString] method: that is the one every object
    inherits, unless the object has an own property of that name; in a data
    value such a property is never callable, the inherited [valueOf] gives
    back the object, and the conversion throws. *)
Fixpoint toString (v : JSValue) : Res string :=
  match v with
  | VUndefined => Ok "undefined"
  | VNull => Ok "null"
  | VBool true => Ok "true"
  | VBool false => Ok "false"
  | VNum n => Ok (showZ n)
  | VNaN => Ok "NaN"
  | VStr s => Ok s
  | VArr l =>
      parts <- (fix each (l : list JSValue) : Res (list string) :=
                  match l with
                  | [] => Ok []
                  | x :: rest =>
                      part <- (if nullish x then Ok "" else toString x) ;;
                      parts <- each rest ;;
                      Ok (part :: parts)
                  end) l ;;
      Ok (joinStrings "," parts)
  | VObj props =>
      if hasOwn "toString" props then Throw TypeError else Ok "[object Object]"
  end.

(** The strings [join] puts together: nothing for undefined and null, the
    conversion of every other element, in order. *)
Fixpoint elementStrings (l : list JSValue) : Res (list string) :=
  match l with
  | [] => Ok []
  | x :: rest =>
      part <- (if nullish x then Ok "" else toString x) ;;
      parts <- elementStrings rest ;;
      Ok (part :: parts)
  end.

(** [v.join(sep)]: only arrays have it. *)
Definition callJoin (v : JSValue) (sep : string) : Res string :=
  match v with
  | VArr l => parts <- elementStrings l ;; Ok (joinStrings sep parts)
  | _ => Throw TypeError
  end.

(** [Array.prototype.some] and [every] with a callback that may throw;
    both stop at the first element that decides the answer. *)
Fixpoint someM {A : Type} (f : A -> Res bool) (l : list A) : Res bool :=
  match l with
  | [] => Ok false
  | x :: rest => b <- f x ;; if b then Ok true else someM f rest
  end.

Fixpoint everyM {A : Type} (f : A -> Res bool) (l : list A) : Res bool :=
  match l with
  | [] => Ok true
  | x :: rest => b <- f x ;; if b then everyM f rest else Ok false
  end.

(** [v.some(f)]: only arrays have it. *)
Definition callSome (v : JSValue) (f : JSValue -> Res bool) : Res bool :=
  match v with
  | VArr l => someM f l
  | _ => Throw TypeError
  end.

(** The values [for (const x of v)] goes through: the elements of an array,
    the characters of a string; nothing else here is iterable. *)
Fixpoint chars (s : string) : list JSValue :=
  match s with
  | EmptyString => []
  | String c s' => VStr (String c EmptyString) :: chars s'
  end.

Definition iterate (v : JSValue) : Res (list JSValue) :=
  match v with
  | VArr l => Ok l
  | VStr s => Ok (chars s)
  | _ => Throw TypeError
  end.

(** [v.map(f)]: only arrays have it.  [f] here is an async function, so the
    call itself never throws: it yields a promise, kept as its outcome. *)
Definition callMap {B : Type} (v : JSValue) (f : JSValue -> B) : Res (list B) :=
  match v with
  | VArr l => Ok (List.map f l)
  | _ => Throw TypeError
  end.

(** The own enumerable properties [{...v}] copies. *)
Fixpoint indexed (i : nat) (l : list JSValue) : list (string * JSValue) :=
  match l with
  | [] => []
  | x :: rest => (NilZero.string_of_uint (Nat.to_uint i), x) :: indexed (S i) rest
  end.

Definition spread (v : JSValue) : list (string * JSValue) :=
  match v with
  | VObj props => props
  | VArr l => indexed 0 l
  | VStr s => indexed 0 (chars s)
  | _ => []
  end.

(** *** Promises

    An async call is kept as its eventual outcome ([Res]); what is observable
    of a promise at a given moment is a [PromiseState]. *)
Inductive PromiseState (A : Type) : Type :=
| Pending
| Fulfilled (v : A)
| Rejected (e : JSError).
Arguments Pending {A}.
Arguments Fulfilled {A} v.
Arguments Rejected {A} e.

(** The state of one [Promise.all] call: the result array under
    construction ([None] is a slot not yet written), the count of elements
    still awaited, and the promise handed to the caller. *)
Record AllState (A : Type) : Type := {
  values : list (option A);
  remainingElementsCount : nat;
  capability : PromiseState (list (option A))
}.
Arguments values {A} _.
Arguments remainingElementsCount {A} _.
Arguments capability {A} _.

Fixpoint setNth {A : Type} (i : nat) (v : A) (l : list (option A)) {struct l}
  : list (option A) :=
  match l, i with
  | [], _ => []
  | _ :: rest, O => Some v :: rest
  | x :: rest, S i' => x :: setNth i' v rest
  end.

Definition allInit {A : Type} (outcomes : list (Res A)) : AllState A :=
  {| values := List.map (fun _ => None) outcomes;
     remainingElementsCount := List.length outcomes;
     capability := match outcomes with [] => Fulfilled [] | _ => Pending end |}.

(** The [i]-th input promise settles.  On fulfilment its value is written
    at index [i] and the count goes down; at zero the result array is
    handed over.  On rejection the whole call is rejected.  A promise that
    is no longer pending ignores both. *)
Definition settle {A : Type} (outcomes : list (Res A)) (st : AllState A) (i : nat)
  : AllState A :=
  match nth_error outcomes i with
  | None => st
  | Some (Throw e) =>
      {| values := values st;
         remainingElementsCount := remainingElementsCount st;
         capability := match capability st with
                       | Pending => Rejected e
                       | c => c
                       end |}
  | Some (Ok v) =>
      match nth_error (values st) i with
      | Some (Some _) => st
      | _ =>
          let values' := setNth i v (values st) in
          let remaining := Nat.pred (remainingElementsCount st) in
          {| values := values';
             remainingElementsCount := remaining;
             capability := match capability st with
                           | Pending =>
                               if Nat.eqb remaining 0 then Fulfilled values' else Pending
                           | c => c
                           end |}
      end
  end.

(** [Promise.all(promises)] after the input promises have settled in the
    order [schedule] gives (a list of indices; a promise that never settles
    is not in it). *)
Definition promiseAll {A : Type} (outcomes : list (Res A)) (schedule : list nat)
  : PromiseState (list (option A)) :=
  capability (fold_left (settle outcomes) schedule (allInit outcomes)).

(** [v === 0] *)
Definition isZero (v : JSValue) : bool :=
  match v with
  | VNum n => n =? 0
  | _ => false
  end.

End JS.

Import JS.

(** ** services/ruleScoringService.js *)

Module RuleScoring.

Definition decisionMakerKeywords : list string :=
  [ "ceo"; "cto"; "cfo"; "chief"; "president"; "director"; "head";
    "founder"; "owner"; "vp"; "vice president"; "general manager";
    "managing director"; "senior vice president" ].

Definition influencerKeywords : list string :=
  [ "manager"; "lead"; "senior"; "principal"; "specialist"; "architect";
    "coordinator"; "supervisor"; "administrator" ].

Definition scoreRoleRelevance (role : JSValue) : Res Z :=
  if negb (truthy role) then Ok 0
  else
    roleLower <- callToLowerCase role ;;
    if existsb (fun keyword => includes roleLower keyword) decisionMakerKeywords
    then Ok 20
    else if existsb (fun keyword => includes roleLower keyword) influencerKeywords
    then Ok 10
    else Ok 0.

Definition adjacentIndustries : list string :=
  [ "saas"; "tech"; "technology"; "software" ].

(** The body of the [for ... of] loop of [scoreIndustryMatch], one use case
    at a time: a [return] inside the loop ends the pass. *)
Fixpoint industryLoop (industryLower : string) (useCases : list JSValue) : Res Z :=
  match useCases with
  | [] => Ok 0
  | useCase :: rest =>
      useCaseLower <- callToLowerCase useCase ;;
      if (includes useCaseLower industryLower || includes industryLower useCaseLower)%bool
      then Ok 20
      else if existsb (fun adj => (includes industryLower adj || includes useCaseLower adj)%bool)
                adjacentIndustries
      then Ok 10
      else industryLoop industryLower rest
  end.

Definition scoreIndustryMatch (industry idealUseCases : JSValue) : Res Z :=
  if negb (truthy industry) then Ok 0
  else if negb (truthy idealUseCases) then Ok 0
  else
    len <- get idealUseCases "length" ;;
    if isZero len then Ok 0
    else
      industryLower <- callToLowerCase industry ;;
      useCases <- iterate idealUseCases ;;
      industryLoop industryLower useCases.

Definition requiredFields : list string :=
  [ "name"; "role"; "company"; "industry"; "location" ].

(** The callback of [requiredFields.every]:
    [value && value.trim().length > 0], as a truth value. *)
Definition fieldPresent (lead : JSValue) (field : string) : Res bool :=
  value <- get lead field ;;
  if truthy value
  then (trimmed <- callTrim value ;;
        Ok (Nat.ltb 0 (String.length trimmed)))
  else Ok false.

Definition scoreDataCompleteness (lead : JSValue) : Res Z :=
  allPresent <- everyM (fieldPresent lead) requiredFields ;;
  Ok (if allPresent : bool then 10 else 0).

Record RuleResult : Type := {
  roleScore : Z;
  industryScore : Z;
  completenessScore : Z;
  totalScore : Z
}.

Definition calculateRuleScore (lead offer : JSValue) : Res RuleResult :=
  catch
    (role <- get lead "role" ;;
     roleScore <- scoreRoleRelevance role ;;
     industry <- get lead "industry" ;;
     ideal_use_cases <- get offer "ideal_use_cases" ;;
     industryScore <- scoreIndustryMatch industry ideal_use_cases ;;
     completenessScore <- scoreDataCompleteness lead ;;
     let totalScore := roleScore + industryScore + completenessScore in
     Ok {| roleScore := roleScore;
           industryScore := industryScore;
           completenessScore := completenessScore;
           totalScore := totalScore |})
    (fun error =>
       Ok {| roleScore := 0;
             industryScore := 0;
             completenessScore := 0;
             totalScore := 0 |}).

End RuleScoring.

(** ** services/aiScoringService.js *)

Module AIScoring.

(** *** The two regular expressions of [parseAIResponse]

    Both carry the [i] flag and neither is global, so [match] returns the
    leftmost match.  The matchers below are the backtracking matchers of
    ECMAScript in continuation-passing style: a matcher takes the rest of
    the input and a continuation for what follows it in the pattern. *)

(** Canonicalize of a case-insensitive, non-unicode pattern: two code units
    match when their upper-case forms agree. *)
Definition ciEq (p c : ascii) : bool := Ascii.eqb (upperChar p) (upperChar c).

Section Matchers.
Variable R : Type.

(** A literal of the pattern; the continuation gets the text it matched. *)
Fixpoint literal (p : string) (k : string -> string -> option R)
         (s : string) : option R :=
  match p with
  | EmptyString => k EmptyString s
  | String pc p' =>
      match s with
      | EmptyString => None
      | String c s' =>
          if ciEq pc c
          then literal p' (fun m rest => k (String c m) rest) s'
          else None
      end
  end.

(** [x*] for a character class, greedy: as many as possible first, one
    less on failure. *)
Fixpoint starGreedy (cls : ascii -> bool) (k : string -> option R)
         (s : string) : option R :=
  match s with
  | EmptyString => k s
  | String c s' =>
      if cls c
      then match starGreedy cls k s' with
           | Some r => Some r
           | None => k s
           end
      else k s
  end.

(** [(x+?)] for a character class, lazy and captured: [acc] is what the
    group holds so far; the continuation is tried before one more
    character is taken. *)
Fixpoint plusLazyFrom (cls : ascii -> bool) (k : string -> string -> option R)
         (acc : string) (s : string) : option R :=
  match k acc s with
  | Some r => Some r
  | None =>
      match s with
      | EmptyString => None
      | String c s' =>
          if cls c
          then plusLazyFrom cls k (acc ++ String c EmptyString) s'
          else None
      end
  end.

Definition plusLazy (cls : ascii -> bool) (k : string -> string -> option R)
           (s : string) : option R :=
  match s with
  | EmptyString => None
  | String c s' =>
      if cls c then plusLazyFrom cls k (String c EmptyString) s' else None
  end.

(** [a|b]: the left alternative first. *)
Definition orElse (a b : option R) : option R :=
  match a with
  | Some r => Some r
  | None => b
  end.

(** Try the pattern at every start position, from the left. *)
Fixpoint search (m : string -> option R) (s : string) : option R :=
  match m s with
  | Some r => Some r
  | None =>
      match s with
      | EmptyString => None
      | String _ s' => search m s'
      end
  end.
End Matchers.

Arguments literal {R} p k s.
Arguments starGreedy {R} cls k s.
Arguments plusLazyFrom {R} cls k acc s.
Arguments plusLazy {R} cls k s.
Arguments orElse {R} a b.
Arguments search {R} m s.

(** [(High|Medium|Low)] at the end of the pattern; the result is group 1. *)
Definition intentWord (s : string) : option string :=
  orElse (literal "High" (fun m _ => Some m) s)
    (orElse (literal "Medium" (fun m _ => Some m) s)
            (literal "Low" (fun m _ => Some m) s)).

(** [response.match(/INTENT:\s*(High|Medium|Low)/i)], group 1 *)
Definition matchIntent (response : string) : option string :=
  search
    (literal "INTENT:" (fun _ => starGreedy isWhiteSpace intentWord))
    response.

(** [.] *)
Definition isDot (c : ascii) : bool := negb (isLineTerminator c).

(** [(?:\n|$)] *)
Definition newlineOrEnd (s : string) : bool :=
  match s with
  | EmptyString => true
  | String c _ => Nat.eqb (code c) 10
  end.

(** [response.match(/REASONING:\s*(.+?)(?:\n|$)/i)], group 1 *)
Definition matchReasoning (response : string) : option string :=
  search
    (literal "REASONING:"
       (fun _ =>
          starGreedy isWhiteSpace
            (plusLazy isDot
               (fun group rest => if newlineOrEnd rest then Some group else None))))
    response.

Record ParsedResponse : Type := {
  parsedIntent : string;
  parsedReasoning : string
}.

Definition parseAIResponse (response : string) : Res ParsedResponse :=
  catch
    (let intentMatch := matchIntent response in
     let intent :=
       match intentMatch with
       | Some group => toUpperCase (charAt0 group) ++ toLowerCase (slice1 group)
       | None => "Medium"
       end in
     let reasoningMatch := matchReasoning response in
     let reasoning :=
       match reasoningMatch with
       | Some group => trim group
       | None => "AI analysis completed"
       end in
     Ok {| parsedIntent := intent; parsedReasoning := reasoning |})
    (fun error =>
       Ok {| parsedIntent := "Medium";
             parsedReasoning := "Unable to parse AI response" |}).

(** A score as JavaScript holds it: a number, or something that is not one. *)
Inductive ScoreValue : Type :=
| Points (n : Z)
| NonNumeric.

(** The own properties of the [mapping] literal of [mapIntentToScore]. *)
Definition mapping : list (string * Z) :=
  [ ("High", 50); ("Medium", 30); ("Low", 10) ].

(** [mapping] is an object literal, so [mapping[intent]] also finds what
    every object inherits from [Object.prototype]: functions, and for
    [__proto__] the prototype itself, all of them truthy. *)
Definition objectPrototypeKeys : list string :=
  [ "constructor"; "__defineGetter__"; "__defineSetter__"; "hasOwnProperty";
    "__lookupGetter__"; "__lookupSetter__"; "isPrototypeOf";
    "propertyIsEnumerable"; "toString"; "valueOf"; "__proto__";
    "toLocaleString" ].

Fixpoint ownProperty (k : string) (props : list (string * Z)) : option Z :=
  match props with
  | [] => None
  | (k', n) :: rest => if (k =? k')%string then Some n else ownProperty k rest
  end.

(** [mapping[intent] || 30] *)
Definition mapIntentToScore (intent : string) : ScoreValue :=
  match ownProperty intent mapping with
  | Some n => if n =? 0 then Points 30 else Points n
  | None =>
      if existsb (String.eqb intent) objectPrototypeKeys
      then NonNumeric
      else Points 30
  end.

Record IntentResult : Type := {
  intent : string;
  score : ScoreValue;
  reasoning : string
}.

Definition strongRoleKeywords : list string :=
  [ "ceo"; "cto"; "founder"; "director"; "head" ].

Definition getFallbackScore (lead offer : JSValue) : Res IntentResult :=
  hasStrongRole <-
    someM (fun keyword =>
             role <- get lead "role" ;;
             if nullish role then Ok false
             else (roleLower <- callToLowerCase role ;;
                   Ok (includes roleLower keyword)))
          strongRoleKeywords ;;
  ideal_use_cases <- get offer "ideal_use_cases" ;;
  hasRelevantIndustry <-
    callSome ideal_use_cases
      (fun useCase =>
         industry <- get lead "industry" ;;
         if nullish industry then Ok false
         else (industryLower <- callToLowerCase industry ;;
               useCaseLower <- callToLowerCase useCase ;;
               Ok (includes industryLower useCaseLower))) ;;
  if (hasStrongRole && hasRelevantIndustry)%bool
  then Ok {| intent := "High"; score := Points 50;
             reasoning := "Strong indicators: relevant role and industry match" |}
  else if (hasStrongRole || hasRelevantIndustry)%bool
  then Ok {| intent := "Medium"; score := Points 30;
             reasoning := "Moderate indicators present" |}
  else Ok {| intent := "Low"; score := Points 10;
             reasoning := "Limited indicators of strong fit" |}.

(** The prompt is one template literal. *)
Definition constructPrompt (lead offer : JSValue) : Res string :=
  offerName <- get offer "name" ;;
  productText <- toString offerName ;;
  value_props <- get offer "value_props" ;;
  valueProps <- callJoin value_props ", " ;;
  ideal_use_cases <- get offer "ideal_use_cases" ;;
  useCases <- callJoin ideal_use_cases ", " ;;
  name <- get lead "name" ;;
  nameText <- toString name ;;
  role <- get lead "role" ;;
  roleText <- toString role ;;
  company <- get lead "company" ;;
  companyText <- toString company ;;
  industry <- get lead "industry" ;;
  industryText <- toString industry ;;
  location <- get lead "location" ;;
  locationText <- toString location ;;
  linkedin_bio <- get lead "linkedin_bio" ;;
  bioText <- toString (if truthy linkedin_bio then linkedin_bio
                       else VStr "Not provided") ;;
  Ok ("Analyze this lead for the following product offering:

PRODUCT: " ++ productText ++ "
VALUE PROPOSITIONS: " ++ valueProps ++ "
IDEAL USE CASES: " ++ useCases ++ "

LEAD INFORMATION:
- Name: " ++ nameText ++ "
- Role: " ++ roleText ++ "
- Company: " ++ companyText ++ "
- Industry: " ++ industryText ++ "
- Location: " ++ locationText ++ "
- LinkedIn Bio: " ++ bioText ++ "

Task: Classify the buying intent as High, Medium, or Low and provide a brief reasoning (1-2 sentences).

Respond in this exact format:
INTENT: [High/Medium/Low]
REASONING: [your brief explanation]").

Definition systemPrompt : string :=
  "You are an expert B2B sales intelligence assistant that evaluates lead quality and buying intent based on prospect data and product offerings.".

(** The providers are outside the program.  An OpenAI client maps the system
    and user messages to [response.choices[0].message.content] or throws; a
    Gemini client maps a model name and a prompt to [response.text()] or
    throws. *)
Definition OpenAIClient : Type := string -> string -> Res JSValue.
Definition GeminiClient : Type := string -> string -> Res JSValue.

(** What the module reads from its surroundings when it is loaded: the two
    clients ([None] is [null], no usable API key) and [AI_PROVIDER]. *)
Record Env : Type := {
  openai : option OpenAIClient;
  gemini : option GeminiClient;
  AI_PROVIDER : option string
}.

Definition calculateOpenAIScore (client : OpenAIClient) (lead offer : JSValue)
  : Res IntentResult :=
  catch
    (prompt <- constructPrompt lead offer ;;
     content <- client systemPrompt prompt ;;
     aiResponse <- callTrim content ;;
     parsed <- parseAIResponse aiResponse ;;
     let score := mapIntentToScore (parsedIntent parsed) in
     Ok {| intent := parsedIntent parsed;
           score := score;
           reasoning := parsedReasoning parsed |})
    (fun error => Throw error).

Definition modelNames : list string :=
  [ "gemini-1.5-flash"; "gemini-1.5-pro"; "gemini-pro"; "models/gemini-pro" ].

(** The probing loop of [calculateGeminiScore]: [model] is assigned before
    the probe, so after the loop it is the first model that answered or,
    when none did, the last one tried. *)
Fixpoint selectModel (client : GeminiClient) (names : list string)
         (model : option string) : option string :=
  match names with
  | [] => model
  | modelName :: rest =>
      match client modelName "Hello" with
      | Ok _ => Some modelName
      | Throw _ => selectModel client rest (Some modelName)
      end
  end.

Definition calculateGeminiScore (client : GeminiClient) (lead offer : JSValue)
  : Res IntentResult :=
  catch
    (model <- match selectModel client modelNames None with
              | Some m => Ok m
              | None => Throw (Error "Unable to connect to any available Gemini model")
              end ;;
     userPrompt <- constructPrompt lead offer ;;
     let fullPrompt := systemPrompt ++ "

" ++ userPrompt in
     text <- client model fullPrompt ;;
     aiResponse <- callTrim text ;;
     parsed <- parseAIResponse aiResponse ;;
     let score := mapIntentToScore (parsedIntent parsed) in
     Ok {| intent := parsedIntent parsed;
           score := score;
           reasoning := parsedReasoning parsed |})
    (fun error => Throw error).

Definition calculateAIScore (env : Env) (lead offer : JSValue) : Res IntentResult :=
  catch
    (let aiProvider :=
       match AI_PROVIDER env with
       | Some p => if (toLowerCase p =? "")%string then "openai" else toLowerCase p
       | None => "openai"
       end in
     match (if (aiProvider =? "openai")%string then openai env else None) with
     | Some client => calculateOpenAIScore client lead offer
     | None =>
         match (if (aiProvider =? "gemini")%string then gemini env else None) with
         | Some client => calculateGeminiScore client lead offer
         | None =>
             match openai env with
             | Some client => calculateOpenAIScore client lead offer
             | None =>
                 match gemini env with
                 | Some client => calculateGeminiScore client lead offer
                 | None => getFallbackScore lead offer
                 end
             end
         end
     end)
    (fun error => getFallbackScore lead offer).

End AIScoring.

(** ** services/scoringService.js *)

Module Scoring.

Import RuleScoring.

(** [number + x] for the scores of the intent layer. *)
Definition plus (n : Z) (s : AIScoring.ScoreValue) : AIScoring.ScoreValue :=
  match s with
  | AIScoring.Points m => AIScoring.Points (n + m)
  | AIScoring.NonNumeric => AIScoring.NonNumeric
  end.

Definition getRuleBreakdown (ruleResult : RuleResult) : string :=
  let parts : list string := [] in
  let parts :=
    if roleScore ruleResult >? 0
    then (parts ++ [("role relevance (" ++ showZ (roleScore ruleResult) ++ " pts)")%string])%list
    else parts in
  let parts :=
    if industryScore ruleResult >? 0
    then (parts ++ [("industry match (" ++ showZ (industryScore ruleResult) ++ " pts)")%string])%list
    else parts in
  let parts :=
    if completenessScore ruleResult >? 0
    then (parts ++ [("data completeness (" ++ showZ (completenessScore ruleResult) ++ " pts)")%string])%list
    else parts in
  if Nat.ltb 0 (List.length parts) then joinStrings ", " parts else "no rule matches".

(** The object [scoreLead] returns: the properties copied from the lead by
    the spread, then the six named ones (which win over a copied property
    of the same name). *)
Record ScoredLead : Type := {
  leadProps : list (string * JSValue);
  intent : string;
  score : AIScoring.ScoreValue;
  reasoning : string;
  ruleScore : Z;
  aiScore : AIScoring.ScoreValue;
  scoreBreakdown : RuleResult
}.

Definition scoreLead (env : AIScoring.Env) (lead offer : JSValue) : Res ScoredLead :=
  catch
    (ruleResult <- calculateRuleScore lead offer ;;
     aiResult <- AIScoring.calculateAIScore env lead offer ;;
     let finalScore := plus (totalScore ruleResult) (AIScoring.score aiResult) in
     let intent := AIScoring.intent aiResult in
     let reasoning :=
       AIScoring.reasoning aiResult ++ " Rule-based analysis: "
         ++ getRuleBreakdown ruleResult in
     Ok {| leadProps := spread lead;
           intent := intent;
           score := finalScore;
           reasoning := reasoning;
           ruleScore := totalScore ruleResult;
           aiScore := AIScoring.score aiResult;
           scoreBreakdown := ruleResult |})
    (fun error => Throw (AppError "Failed to score lead" 500)).

(** [scoreLeads] is async: what the caller holds is a promise.  [schedule]
    is the order in which the per-lead promises settle. *)
Definition scoreLeads (env : AIScoring.Env) (leads offer : JSValue)
           (schedule : list nat) : PromiseState (list (option ScoredLead)) :=
  match (len <- get leads "length" ;;
         callMap leads (fun lead => scoreLead env lead offer)) with
  | Throw error => Rejected (AppError "Failed to score leads" 500)
  | Ok scorePromises =>
      match promiseAll scorePromises schedule with
      | Pending => Pending
      | Fulfilled results => Fulfilled results
      | Rejected error => Rejected (AppError "Failed to score leads" 500)
      end
  end.

End Scoring.

(** ** More of the JavaScript library, for the utilities *)

Module JSMore.

(** The double quote character. *)
Definition dquoteChar : ascii := ascii_of_nat 34.
Definition dquote : string := String dquoteChar EmptyString.

(** [Object.keys(v)] *)
Definition objectKeys (v : JSValue) : list string :=
  List.map fst (spread v).




(** The global [replace] of [formatToCSV]: every double quote becomes
    two. *)
Fixpoint doubleQuotes (s : string) : string :=
  match s with
  | EmptyString => EmptyString
  | String c s' =>
      if Ascii.eqb c dquoteChar
      then String c (String c (doubleQuotes s'))
      else String c (doubleQuotes s')
  end.

(** [Array.prototype.map] with a callback that may throw. *)
Fixpoint mapM {A B : Type} (f : A -> Res B) (l : list A) : Res (list B) :=
  match l with
  | [] => Ok []
  | x :: rest => y <- f x ;; ys <- mapM f rest ;; Ok (y :: ys)
  end.

Definition callMapM {B : Type} (v : JSValue) (f : JSValue -> Res B) : Res (list B) :=
  match v with
  | VArr l => mapM f l
  | _ => Throw TypeError
  end.

End JSMore.

Import JSMore.

(** ** middleware/errorHandler.js *)

Module ErrorHandler.

(** The [status] an [AppError] gives itself:
    [`${statusCode}`.startsWith('4') ? 'fail' : 'error']. *)
Definition appErrorStatus (statusCode : Z) : string :=
  if startsWith (showZ statusCode) "4" then "fail" else "error".

(** An error object as the handler sees it: its [message] and [stack],
    which are not enumerable, and its own enumerable properties in the
    order they were set, among them [statusCode] and [status] when the
    error carries them. *)
Record ErrorObject : Type := {
  message : string;
  stack : JSValue;
  props : list (string * JSValue)
}.

(** [new AppError(message, statusCode)] *)
Definition newAppError (msg : string) (code : Z) (trace : JSValue) : ErrorObject :=
  {| message := msg;
     stack := trace;
     props := [ ("statusCode", VNum code);
                ("status", VStr (appErrorStatus code));
                ("isOperational", VBool true) ] |}.

(** The error object of a value thrown by the services of the model: an
    [AppError], or a built-in error, which has no enumerable property of
    its own; the text of a [TypeError] is the engine's and is given.
    (Errors made elsewhere, such as those of the body parser, are error
    objects with properties of their own and are not of this form.) *)
Definition errorObject (typeErrorText : string) (trace : JSValue) (e : JSError)
  : ErrorObject :=
  match e with
  | AppError msg code => newAppError msg code trace
  | Error msg => {| message := msg; stack := trace; props := [] |}
  | TypeError => {| message := typeErrorText; stack := trace; props := [] |}
  end.

(** [obj.k = v]: in place when the property is there, else added last. *)
Fixpoint setProp (k : string) (v : JSValue) (props : list (string * JSValue))
  : list (string * JSValue) :=
  match props with
  | [] => [(k, v)]
  | (k', v') :: rest =>
      if (k =? k')%string then (k, v) :: rest else (k', v') :: setProp k v rest
  end.

(** What [res.status(code).json(body)] is given: the status code and the
    properties of the object literal, in order. *)
Record Response : Type := {
  httpStatus : JSValue;
  body : list (string * JSValue)
}.

(** [errorHandler(err, req, res, next)]; [development] is
    [process.env.NODE_ENV === 'development'].  In the development answer
    the error object stands under [error], shown by its enumerable
    properties after the two assignments. *)
Definition errorHandler (development : bool) (err : ErrorObject) : Response :=
  let statusCode :=
    if truthy (lookup "statusCode" (props err))
    then lookup "statusCode" (props err) else VNum 500 in
  let props1 := setProp "statusCode" statusCode (props err) in
  let status :=
    if truthy (lookup "status" props1) then lookup "status" props1
    else VStr "error" in
  let props2 := setProp "status" status props1 in
  if development
  then {| httpStatus := statusCode;
          body := [ ("status", status);
                    ("error", VObj props2);
                    ("message", VStr (message err));
                    ("stack", stack err) ] |}
  else {| httpStatus := statusCode;
          body := [ ("status", status);
                    ("message",
                     if negb (message err =? "")%string
                     then VStr (message err)
                     else VStr "Something went wrong") ] |}.

(** [notFoundHandler]: the error handed to [next]; the URL of a request is
    a string. *)
Definition notFoundHandler (originalUrl : string) (trace : JSValue) : ErrorObject :=
  newAppError ("Cannot find " ++ originalUrl ++ " on this server") 404 trace.

End ErrorHandler.

(** ** utils/csvParser.js *)

Module CsvParser.

Definition requiredColumns : list string :=
  [ "name"; "role"; "company"; "industry"; "location"; "linkedin_bio" ].

(** [parseCSV]; [parsed] is what the csv-parse library makes of the buffer:
    the records, one object per line with the header names as keys, or an
    error of its own. *)
Definition parseCSV (parsed : Res (list JSValue)) : Res (list JSValue) :=
  catch
    (records <- parsed ;;
     let first := match records with
                  | r :: _ => if truthy r then r else VObj []
                  | [] => VObj []
                  end in
     let providedColumns := objectKeys first in
     let missingColumns :=
       List.filter (fun col => negb (existsb (String.eqb col) providedColumns))
                   requiredColumns in
     if Nat.ltb 0 (List.length missingColumns)
     then Throw (AppError ("Missing required columns: "
                             ++ joinStrings ", " missingColumns) 400)
     else Ok records)
    (fun error =>
       match error with
       | AppError _ _ => Throw error
       | _ => Throw (AppError "Invalid CSV file format" 400)
       end).

Definition requiredFields : list string :=
  [ "name"; "role"; "company"; "industry"; "location" ].

(** The [for ... of] loop of [validateLead]. *)
Fixpoint validateFields (lead : JSValue) (fields : list string) : Res bool :=
  match fields with
  | [] => Ok true
  | field :: rest =>
      value <- get lead field ;;
      if negb (truthy value) then Ok false
      else
        value' <- get lead field ;;
        trimmed <- callTrim value' ;;
        if Nat.eqb (String.length trimmed) 0 then Ok false
        else validateFields lead rest
  end.

Definition validateLead (lead : JSValue) : Res bool :=
  validateFields lead requiredFields.

Definition columns : list string :=
  [ "name"; "role"; "company"; "industry"; "location"; "intent"; "score";
    "reasoning" ].

(** The cell of one column of one lead: [lead[column] || ''], quoted when
    it is a string that holds a comma or a double quote. *)
Definition cell (lead : JSValue) (column : string) : Res JSValue :=
  v <- get lead column ;;
  let value := if truthy v then v else VStr "" in
  match value with
  | VStr s =>
      if (includes s "," || includes s dquote)%bool
      then Ok (VStr (dquote ++ doubleQuotes s ++ dquote))
      else Ok value
  | _ => Ok value
  end.

(** The row of one lead: its cells joined by commas. *)
Definition row (lead : JSValue) : Res string :=
  cells <- mapM (cell lead) columns ;;
  callJoin (VArr cells) ",".

Definition formatToCSV (leads : JSValue) : Res string :=
  if negb (truthy leads) then Ok ""
  else
    len <- get leads "length" ;;
    if isZero len then Ok ""
    else
      let header := joinStrings "," columns in
      rows <- callMapM leads row ;;
      Ok (joinStrings "
" (header :: rows)).

End CsvParser.

(** ** utils/fileUpload.js *)

Module FileUpload.



End FileUpload.

(** ** controllers/leadsController.js *)

Module LeadsController.

(** The validation loop of [uploadLeads]: the leads that pass
    [validateLead], and the others with their line number in the file. *)
Fixpoint validateAll (index : nat) (leadsData : list JSValue)
  : Res (list JSValue * list (nat * JSValue)) :=
  match leadsData with
  | [] => Ok ([], [])
  | lead :: rest =>
      valid <- CsvParser.validateLead lead ;;
      others <- validateAll (S index) rest ;;
      if valid : bool
      then Ok (lead :: fst others, snd others)
      else Ok (fst others, (index + 2, lead)%nat :: snd others)
  end.

End LeadsController.

(** * Vocabulary of the specification *)

(** [t] occurs in [s]. *)
Definition Substring (t s : string) : Prop :=
  exists a b, s = a ++ t ++ b.

(** Some keyword of the list occurs in [s]. *)
Definition ContainsAny (keywords : list string) (s : string) : Prop :=
  exists keyword, In keyword keywords /\ Substring keyword s.

(** A string is blank when it holds white space only. *)
Fixpoint blank (s : string) : bool :=
  match s with
  | EmptyString => true
  | String c s' => (isWhiteSpace c && blank s')%bool
  end.

(** The two tests of the industry pass, on a lead's industry and one use
    case: either string contains the other, both in lower case; the industry
    or the use case contains an adjacency keyword. *)
Definition EitherContains (industry useCase : string) : Prop :=
  Substring (toLowerCase industry) (toLowerCase useCase) \/
  Substring (toLowerCase useCase) (toLowerCase industry).

Definition Adjacent (industry useCase : string) : Prop :=
  exists adj, In adj RuleScoring.adjacentIndustries /\
              (Substring adj (toLowerCase industry) \/
               Substring adj (toLowerCase useCase)).

(** A use case that triggers neither test. *)
Definition NoHit (industry useCase : string) : Prop :=
  ~ EitherContains industry useCase /\ ~ Adjacent industry useCase.

(** An array of strings. *)
Definition stringArray (l : list string) : JSValue := VArr (List.map VStr l).

(** A required field of a lead is populated when it is a string that is not
    empty after trimming; it is missing or blank when it is absent, null,
    or a string that trimming empties. *)
Definition Populated (lead : JSValue) (field : string) : Prop :=
  exists s, get lead field = Ok (VStr s) /\ trim s <> "".

Definition MissingOrBlank (lead : JSValue) (field : string) : Prop :=
  exists v, get lead field = Ok v /\
            (v = VUndefined \/ v = VNull \/ exists s, v = VStr s /\ trim s = "").

(** A lead as the data model has it: each required field, when present, is
    a string. *)
Definition StringFields (lead : JSValue) : Prop :=
  forall field, In field RuleScoring.requiredFields ->
    exists v, get lead field = Ok v /\
              (v = VUndefined \/ v = VNull \/ exists s, v = VStr s).

(** A field is missing from an object when reading it gives nothing usable:
    the object itself is absent, or the field is undefined, null or the
    empty string. *)
Definition Missing (obj : JSValue) (field : string) : Prop :=
  forall v, get obj field = Ok v -> v = VUndefined \/ v = VNull \/ v = VStr "".

(** [m] is the pattern text [p] up to letter case. *)
Fixpoint ciMatches (p m : string) : bool :=
  match p, m with
  | EmptyString, EmptyString => true
  | String pc p', String c m' => (AIScoring.ciEq pc c && ciMatches p' m')%bool
  | _, _ => false
  end.

(** No line terminator occurs in [s]. *)
Fixpoint oneLine (s : string) : bool :=
  match s with
  | EmptyString => true
  | String c s' => (AIScoring.isDot c && oneLine s')%bool
  end.

(** One of the three intent words, in any letter case. *)
Definition IntentWord (word : string) : Prop :=
  ciMatches "High" word = true \/ ciMatches "Medium" word = true \/
  ciMatches "Low" word = true.

(** The reply holds [INTENT:], optional white space, and an intent word. *)
Definition IntentPatternPresent (response : string) : Prop :=
  exists before label space word after,
    response = before ++ label ++ space ++ word ++ after /\
    ciMatches "INTENT:" label = true /\
    blank space = true /\
    IntentWord word.

(** The reply holds [REASONING:], optional white space, and a non-empty run
    of text that stays on one line and ends at a line feed or at the end of
    the reply. *)
Definition ReasoningPatternPresent (response : string) : Prop :=
  exists before label space text after,
    response = before ++ label ++ space ++ text ++ after /\
    ciMatches "REASONING:" label = true /\
    blank space = true /\
    text <> "" /\ oneLine text = true /\
    AIScoring.newlineOrEnd after = true.

(** A field that, when present, is a string: [Some s] for the string [s],
    [None] for undefined or null. *)
Definition fieldIs (v : JSValue) (o : option string) : Prop :=
  match o with
  | Some s => v = VStr s
  | None => v = VUndefined \/ v = VNull
  end.

(** The two signals of the fallback heuristic, as the code computes them:
    the role holds a strong-signal keyword; some ideal use case occurs in
    the industry, both in lower case. *)
Definition StrongRole (role : option string) : Prop :=
  exists r, role = Some r /\
            ContainsAny AIScoring.strongRoleKeywords (toLowerCase r).

Definition UseCaseInIndustry (industry : option string) (useCases : list string) : Prop :=
  exists i useCase, industry = Some i /\ In useCase useCases /\
                    Substring (toLowerCase useCase) (toLowerCase i).

(** The industry signal as the specification words it: the industry occurs
    in some ideal use case. *)
Definition IndustryInUseCase (industry : option string) (useCases : list string) : Prop :=
  exists i useCase, industry = Some i /\ In useCase useCases /\
                    Substring (toLowerCase i) (toLowerCase useCase).

Definition fallbackHigh : AIScoring.IntentResult :=
  {| AIScoring.intent := "High"; AIScoring.score := AIScoring.Points 50;
     AIScoring.reasoning := "Strong indicators: relevant role and industry match" |}.

Definition fallbackMedium : AIScoring.IntentResult :=
  {| AIScoring.intent := "Medium"; AIScoring.score := AIScoring.Points 30;
     AIScoring.reasoning := "Moderate indicators present" |}.

Definition fallbackLow : AIScoring.IntentResult :=
  {| AIScoring.intent := "Low"; AIScoring.score := AIScoring.Points 10;
     AIScoring.reasoning := "Limited indicators of strong fit" |}.

(** The two flags of [getFallbackScore] on a lead whose role and industry
    are strings where present and an offer whose use cases are strings. *)
Definition strongRoleFlag (role : option string) : bool :=
  match role with
  | Some r => existsb (fun keyword => includes (toLowerCase r) keyword) AIScoring.strongRoleKeywords
  | None => false
  end.

Definition relevantIndustryFlag (industry : option string) (useCases : list string) : bool :=
  match industry with
  | Some i => existsb (fun useCase => includes (toLowerCase i) (toLowerCase useCase)) useCases
  | None => false
  end.

(** The three values an intent score takes. *)
Definition IntentScore (s : AIScoring.ScoreValue) : Prop :=
  s = AIScoring.Points 10 \/ s = AIScoring.Points 30 \/ s = AIScoring.Points 50.

(** The rule clause of a reasoning string as the specification words it,
    written out on its own: a sub-score in decimal digits, a part as its
    label and points, the parts that are not zero in the order role,
    industry, completeness, put together with a comma and a space, or a
    fixed text when all three are zero. *)
Definition digit (d : Z) : string :=
  if d =? 0 then "0" else if d =? 1 then "1" else if d =? 2 then "2"
  else if d =? 3 then "3" else if d =? 4 then "4" else if d =? 5 then "5"
  else if d =? 6 then "6" else if d =? 7 then "7" else if d =? 8 then "8"
  else "9".

(** Decimal notation of a number from 0 to 99. *)
Definition decimal (n : Z) : string :=
  if n <? 10 then digit n else digit (n / 10) ++ digit (n mod 10).

Definition renderPart (part : string * Z) : string :=
  fst part ++ " (" ++ decimal (snd part) ++ " pts)".

Fixpoint commaSeparated (parts : list string) : string :=
  match parts with
  | [] => ""
  | [part] => part
  | part :: rest => part ++ ", " ++ commaSeparated rest
  end.

Definition ruleClause (r : RuleScoring.RuleResult) : string :=
  let nonzero :=
    List.filter (fun part => negb (snd part =? 0))
      [ ("role relevance", RuleScoring.roleScore r);
        ("industry match", RuleScoring.industryScore r);
        ("data completeness", RuleScoring.completenessScore r) ] in
  match nonzero with
  | [] => "no rule matches"
  | _ => commaSeparated (List.map renderPart nonzero)
  end.

(** Sample inputs for the examples below: the lead and offer of the
    service's README, a provider that answers in the requested format, and
    the environments with and without it. *)
Definition sampleLead : JSValue :=
  VObj [ ("name", VStr "Ava Patel"); ("role", VStr "Head of Growth");
         ("company", VStr "FlowMetrics"); ("industry", VStr "B2B SaaS");
         ("location", VStr "San Francisco");
         ("linkedin_bio", VStr "Scaling revenue teams") ].

Definition sampleOffer : JSValue :=
  VObj [ ("name", VStr "AI Outreach Automation");
         ("value_props", stringArray ["24/7 outreach"; "6x more meetings"]);
         ("ideal_use_cases", stringArray ["B2B SaaS mid-market"; "Sales teams"]) ].

Definition sampleClient : AIScoring.OpenAIClient :=
  fun _ _ => Ok (VStr "INTENT: High
REASONING: Fits ICP SaaS mid-market and role is decision maker.
").

Definition withProvider : AIScoring.Env :=
  {| AIScoring.openai := Some sampleClient;
     AIScoring.gemini := None;
     AIScoring.AI_PROVIDER := None |}.

Definition noProvider : AIScoring.Env :=
  {| AIScoring.openai := None;
     AIScoring.gemini := None;
     AIScoring.AI_PROVIDER := None |}.

(** Slots of a [Promise.all] result array that are still unwritten. *)
Fixpoint countNone {A : Type} (l : list (option A)) : nat :=
  match l with
  | [] => 0
  | None :: rest => S (countNone rest)
  | Some _ :: rest => countNone rest
  end.

(** A written slot holds the value its promise was fulfilled with. *)
Definition SlotOk {A : Type} (slot : option A) (outcome : Res A) : Prop :=
  match slot with
  | None => True
  | Some v => outcome = Ok v
  end.

(** The invariant of a [Promise.all] call after the promises at the indices
    [processed] have settled. *)
Record AllInv {A : Type} (outcomes : list (Res A)) (processed : list nat)
       (st : AllState A) : Prop := {
  inv_slots : Forall2 SlotOk (values st) outcomes;
  inv_count : remainingElementsCount st = countNone (values st);
  inv_done : forall i v, In i processed -> nth_error outcomes i = Some (Ok v) ->
                         nth_error (values st) i = Some (Some v);
  inv_capability :
    match capability st with
    | Pending =>
        (0 < countNone (values st))%nat /\
        forall i e, In i processed -> nth_error outcomes i <> Some (Throw e)
    | Fulfilled vs => vs = values st /\ countNone (values st) = 0%nat
    | Rejected e => exists i, nth_error outcomes i = Some (Throw e)
    end
}.

(** * Vocabulary for the utilities *)

(** The text [formatToCSV] writes for a string value. *)
Definition cellText (s : string) : string :=
  if (includes s "," || includes s dquote)%bool
  then dquote ++ doubleQuotes s ++ dquote
  else s.

(** The header line of an export. *)
Definition csvHeader : string :=
  "name,role,company,industry,location,intent,score,reasoning".


(** * Vocabulary for the composition of the layers *)

(** A lead whose role and industry are strings where present, and an offer
    whose ideal use cases are an array of strings. *)
Definition WellFormedLead (lead : JSValue) : Prop :=
  exists rv iv role industry,
    get lead "role" = Ok rv /\ fieldIs rv role /\
    get lead "industry" = Ok iv /\ fieldIs iv industry.

Definition WellFormedOffer (offer : JSValue) : Prop :=
  exists useCases, get offer "ideal_use_cases" = Ok (stringArray useCases).

(** The intent table, as a relation between label and score. *)
Definition LabelAndScore (label : string) (s : AIScoring.ScoreValue) : Prop :=
  (label = "High" /\ s = AIScoring.Points 50) \/
  (label = "Medium" /\ s = AIScoring.Points 30) \/
  (label = "Low" /\ s = AIScoring.Points 10).

(** Every probe of the models in [names] throws. *)
Definition AllProbesFail (client : AIScoring.GeminiClient) (names : list string) : Prop :=
  forall name, In name names -> exists e, client name "Hello" = Throw e.

(** * Vocabulary for replies in the requested format *)

Definition newline : string := String (ascii_of_nat 10) EmptyString.

(** Every character of [s] passes [f]. *)
Fixpoint allChars (f : ascii -> bool) (s : string) : bool :=
  match s with
  | EmptyString => true
  | String c s' => (f c && allChars f s')%bool
  end.

(** [s] is empty or starts with something that is not white space. *)
Definition startsNonSpace (s : string) : bool :=
  match s with
  | EmptyString => true
  | String c _ => negb (isWhiteSpace c)
  end.

(** The end of the reasoning pattern, [(?:\n|$)], as a continuation. *)
Definition atLineEnd (group rest : string) : option string :=
  if AIScoring.newlineOrEnd rest then Some group else None.

(** The breakdown [calculateRuleScore] answers with when its [try] block
    throws. *)
Definition zeroBreakdown : RuleScoring.RuleResult :=
  {| RuleScoring.roleScore := 0;
     RuleScoring.industryScore := 0;
     RuleScoring.completenessScore := 0;
     RuleScoring.totalScore := 0 |}.

(** A value that is there but is not a string: a number other than 0, true,
    an array or an object. *)
Definition TruthyNonString (v : JSValue) : Prop :=
  truthy v = true /\ forall s, v <> VStr s.

(** * Vocabulary for uploads, exports and prompts *)

(** Whether a lead passes upload validation. *)
Definition passes (lead : JSValue) : bool :=
  match CsvParser.validateLead lead with
  | Ok true => true
  | _ => false
  end.

(** The parsed leads with their line numbers in the file: the header is
    line 1, so the lead at position [i] of the list after [first] others
    is on line [first + i + 2]. *)
Definition withLines (first : nat) (leads : list JSValue) : list (nat * JSValue) :=
  combine (seq (first + 2) (List.length leads)) leads.

(** A value that is not an array or an object. *)
Definition primitive (v : JSValue) : bool :=
  match v with
  | VArr _ | VObj _ => false
  | _ => true
  end.

(** The property [k] of [v] can be read and is a primitive value (a
    missing property reads as undefined, which is one). *)
Definition primitiveField (v : JSValue) (k : string) : bool :=
  match get v k with
  | Ok x => primitive x
  | Throw _ => false
  end.

(** The property [k] of [v] is an array of primitive values. *)
Definition primitiveArrayField (v : JSValue) (k : string) : bool :=
  match get v k with
  | Ok (VArr l) => forallb primitive l
  | _ => false
  end.

(** A lead as an upload or a scoring run produces it: not null or
    undefined, and with a primitive value in every exported column. *)
Definition exportable (lead : JSValue) : bool :=
  negb (nullish lead) && forallb (primitiveField lead) CsvParser.columns.

(** A lead and an offer of plain data: primitive values in the fields the
    prompt prints, and arrays of primitive values in the two lists of the
    offer. *)
Definition promptable (lead offer : JSValue) : bool :=
  forallb (primitiveField lead)
          ["name"; "role"; "company"; "industry"; "location"; "linkedin_bio"]
  && primitiveField offer "name"
  && primitiveArrayField offer "value_props"
  && primitiveArrayField offer "ideal_use_cases".

(** * Properties *)

(** ** Strings *)

Lemma startsWith_spec (s p : string) :
  startsWith s p = true <-> exists b, s = p ++ b.
Proof.
  revert s; induction p as [|pc p IH]; intros s; simpl.
  - split; [intros _; now exists s | reflexivity].
  - destruct s as [|c s]; simpl.
    + split; [discriminate | intros [b Hb]; discriminate].
    + rewrite andb_true_iff, Ascii.eqb_eq, IH. split.
      * intros [-> [b ->]]. now exists b.
      * intros [b Hb]. injection Hb as -> ->. split; [reflexivity | now exists b].
Qed.

Lemma includes_spec (s t : string) :
  includes s t = true <-> Substring t s.
Proof.
  unfold Substring. induction s as [|c s IH].
  - simpl. rewrite orb_false_r, startsWith_spec. split.
    + intros [b Hb]. now exists "", b.
    + intros [a [b Hab]]. destruct a; [now exists b | discriminate].
  - cbn [includes]. rewrite orb_true_iff, startsWith_spec, IH. split.
    + intros [[b Hb] | [a [b Hab]]].
      * now exists "", b.
      * exists (String c a), b. simpl. now rewrite Hab.
    + intros [a [b Hab]]. destruct a as [|c' a]; simpl in Hab.
      * left. now exists b.
      * right. injection Hab as -> ->. now exists a, b.
Qed.

Lemma includes_false (s t : string) :
  includes s t = false <-> ~ Substring t s.
Proof.
  rewrite <- includes_spec. destruct (includes s t); split; congruence.
Qed.

Lemma append_assoc (a b c : string) : (a ++ b) ++ c = a ++ b ++ c.
Proof. induction a; simpl; congruence. Qed.

Lemma append_empty_r (a : string) : a ++ "" = a.
Proof. induction a; simpl; congruence. Qed.

Lemma Substring_context (t s pre post : string) :
  Substring t s -> Substring t (pre ++ s ++ post).
Proof.
  intros [a [b ->]]. exists (pre ++ a), (b ++ post).
  now rewrite !append_assoc.
Qed.

Lemma toLowerCase_app (a b : string) :
  toLowerCase (a ++ b) = toLowerCase a ++ toLowerCase b.
Proof. induction a; simpl; congruence. Qed.

Lemma existsb_includes (keywords : list string) (s : string) :
  existsb (fun keyword => includes s keyword) keywords = true <-> ContainsAny keywords s.
Proof.
  unfold ContainsAny. rewrite existsb_exists.
  split; intros [k [Hin H]]; exists k; split; auto; now apply includes_spec.
Qed.

Lemma existsb_includes_false (keywords : list string) (s : string) :
  existsb (fun keyword => includes s keyword) keywords = false <-> ~ ContainsAny keywords s.
Proof.
  rewrite <- existsb_includes.
  destruct (existsb _ keywords); split; congruence.
Qed.

Lemma ContainsAny_context (keywords : list string) (s pre post : string) :
  ContainsAny keywords s -> ContainsAny keywords (pre ++ s ++ post).
Proof.
  intros [k [Hin H]]. exists k. split; [assumption | now apply Substring_context].
Qed.

Lemma trimEnd_empty (s : string) : trimEnd s = "" <-> blank s = true.
Proof.
  induction s as [|c s IH]; simpl.
  - tauto.
  - destruct (trimEnd s) eqn:E.
    + destruct (isWhiteSpace c); simpl.
      * tauto.
      * split; discriminate.
    + rewrite andb_true_iff. split; [discriminate|].
      intros [_ Hb]. apply IH in Hb. discriminate.
Qed.

Lemma trim_empty (s : string) : trim s = "" <-> blank s = true.
Proof.
  unfold trim. rewrite trimEnd_empty.
  induction s as [|c s IH]; simpl.
  - tauto.
  - destruct (isWhiteSpace c) eqn:E; simpl.
    + assumption.
    + rewrite E. simpl. tauto.
Qed.

Lemma length_pos (s : string) : Nat.ltb 0 (String.length s) = negb (s =? "")%string.
Proof. now destruct s. Qed.

(** ** Role relevance *)

Import RuleScoring.

Lemma scoreRoleRelevance_string (role : string) :
  scoreRoleRelevance (VStr role) =
  Ok (if existsb (fun keyword => includes (toLowerCase role) keyword) decisionMakerKeywords
      then 20
      else if existsb (fun keyword => includes (toLowerCase role) keyword) influencerKeywords
           then 10
           else 0).
Proof.
  unfold scoreRoleRelevance. destruct role as [|c role].
  - reflexivity.
  - cbn [truthy String.eqb negb callToLowerCase bind].
    destruct (existsb _ decisionMakerKeywords); [reflexivity|].
    destruct (existsb _ influencerKeywords); reflexivity.
Qed.

(** C6.  The role sub-score of a role string is 20 when its lower-case form
    contains a decision-maker keyword, whatever else it contains; otherwise
    10 when it contains an influencer keyword; otherwise 0.  A role that
    scores 20 still scores 20 with any text added before or after it, and an
    empty, undefined or null role scores 0. *)
Theorem scoreRoleRelevance_classification :
  (forall role : string,
      (ContainsAny decisionMakerKeywords (toLowerCase role) ->
       scoreRoleRelevance (VStr role) = Ok 20) /\
      (~ ContainsAny decisionMakerKeywords (toLowerCase role) ->
       ContainsAny influencerKeywords (toLowerCase role) ->
       scoreRoleRelevance (VStr role) = Ok 10) /\
      (~ ContainsAny decisionMakerKeywords (toLowerCase role) ->
       ~ ContainsAny influencerKeywords (toLowerCase role) ->
       scoreRoleRelevance (VStr role) = Ok 0)) /\
  (forall role before after : string,
      scoreRoleRelevance (VStr role) = Ok 20 ->
      scoreRoleRelevance (VStr (before ++ role ++ after)) = Ok 20) /\
  scoreRoleRelevance (VStr "") = Ok 0 /\
  scoreRoleRelevance VUndefined = Ok 0 /\
  scoreRoleRelevance VNull = Ok 0.
Proof.
  assert (Hdm : forall role,
             ContainsAny decisionMakerKeywords (toLowerCase role) ->
             scoreRoleRelevance (VStr role) = Ok 20).
  { intros role H. rewrite scoreRoleRelevance_string.
    apply existsb_includes in H. now rewrite H. }
  split; [|split; [|repeat split]].
  - intros role. split; [apply Hdm | split].
    + intros Hn Hi. rewrite scoreRoleRelevance_string.
      apply existsb_includes_false in Hn. apply existsb_includes in Hi.
      now rewrite Hn, Hi.
    + intros Hn Hi. rewrite scoreRoleRelevance_string.
      apply existsb_includes_false in Hn. apply existsb_includes_false in Hi.
      now rewrite Hn, Hi.
  - intros role before after H. apply Hdm.
    rewrite !toLowerCase_app. apply ContainsAny_context.
    rewrite scoreRoleRelevance_string in H.
    apply existsb_includes.
    destruct (existsb _ decisionMakerKeywords); [reflexivity|].
    destruct (existsb _ influencerKeywords); discriminate.
Qed.

Lemma scoreRoleRelevance_classification_witness :
  scoreRoleRelevance (VStr "Director") = Ok 20 /\
  scoreRoleRelevance (VStr ("Senior " ++ "Director" ++ " and Team Lead")) = Ok 20.
Proof.
  split.
  - reflexivity.
  - apply (proj1 (proj2 scoreRoleRelevance_classification) "Director").
    reflexivity.
Defined.

(** ** Industry match *)

Lemma either_test (industry useCase : string) :
  (includes (toLowerCase useCase) (toLowerCase industry)
   || includes (toLowerCase industry) (toLowerCase useCase))%bool = true
  <-> EitherContains industry useCase.
Proof.
  unfold EitherContains. now rewrite orb_true_iff, !includes_spec.
Qed.

Lemma adjacent_test (industry useCase : string) :
  existsb (fun adj => (includes (toLowerCase industry) adj
                       || includes (toLowerCase useCase) adj)%bool)
          adjacentIndustries = true
  <-> Adjacent industry useCase.
Proof.
  unfold Adjacent. rewrite existsb_exists.
  split; intros [adj [Hin H]]; exists adj; split; auto.
  - now rewrite orb_true_iff, !includes_spec in H.
  - now rewrite orb_true_iff, !includes_spec.
Qed.

(** One iteration of the loop on a string use case, whatever follows it in
    the array. *)
Lemma industryLoop_step (industry useCase : string) (later : list JSValue) :
  (EitherContains industry useCase ->
   industryLoop (toLowerCase industry) (VStr useCase :: later) = Ok 20) /\
  (~ EitherContains industry useCase -> Adjacent industry useCase ->
   industryLoop (toLowerCase industry) (VStr useCase :: later) = Ok 10) /\
  (NoHit industry useCase ->
   industryLoop (toLowerCase industry) (VStr useCase :: later)
   = industryLoop (toLowerCase industry) later).
Proof.
  cbn [industryLoop callToLowerCase bind].
  pose proof (either_test industry useCase) as He.
  pose proof (adjacent_test industry useCase) as Ha.
  destruct (includes (toLowerCase useCase) (toLowerCase industry)
            || includes (toLowerCase industry) (toLowerCase useCase))%bool.
  - repeat split; intros; try reflexivity.
    + exfalso. apply H. now apply He.
    + exfalso. destruct H as [H _]. apply H. now apply He.
  - destruct (existsb _ adjacentIndustries).
    + repeat split; intros; try reflexivity.
      * apply He in H. discriminate.
      * exfalso. destruct H as [_ H]. apply H. now apply Ha.
    + repeat split; intros; try reflexivity.
      * apply He in H. discriminate.
      * apply Ha in H0. discriminate.
Qed.

Lemma scoreIndustryMatch_array (industry : string) (elems : list JSValue) :
  industry <> "" -> elems <> [] ->
  scoreIndustryMatch (VStr industry) (VArr elems)
  = industryLoop (toLowerCase industry) elems.
Proof.
  intros Hi He. unfold scoreIndustryMatch.
  destruct industry as [|c industry]; [congruence|].
  destruct elems as [|e elems]; [congruence|].
  reflexivity.
Qed.

Lemma industryLoop_skip (industry : string) (before : list string) (later : list JSValue) :
  (forall u, In u before -> NoHit industry u) ->
  industryLoop (toLowerCase industry) (List.map VStr before ++ later)%list
  = industryLoop (toLowerCase industry) later.
Proof.
  induction before as [|u before IH]; intros H.
  - reflexivity.
  - cbn [List.map List.app].
    rewrite (proj2 (proj2 (industryLoop_step industry u _))) by (apply H; now left).
    apply IH. intros v Hv. apply H. now right.
Qed.

(** C2.  For a non-empty industry and a non-empty list of use cases, the
    industry sub-score is decided by the first use case, in list order, at
    which a test fires: 20 when either string contains the other in lower
    case, else 10 when the industry or that use case contains an adjacency
    keyword; what follows that use case in the array is not looked at, so
    an adjacency hit returns 10 even when a later use case would have given
    20.  When no use case fires either test the score is 0. *)
Theorem scoreIndustryMatch_first_hit (industry : string) (useCases : list string) :
  industry <> "" -> useCases <> [] ->
  (forall before useCase after,
      useCases = (before ++ useCase :: after)%list ->
      (forall u, In u before -> NoHit industry u) ->
      (EitherContains industry useCase ->
       scoreIndustryMatch (VStr industry) (stringArray useCases) = Ok 20) /\
      (~ EitherContains industry useCase -> Adjacent industry useCase ->
       scoreIndustryMatch (VStr industry) (stringArray useCases) = Ok 10 /\
       forall later : list JSValue,
         scoreIndustryMatch (VStr industry)
           (VArr (List.map VStr before ++ VStr useCase :: later)) = Ok 10)) /\
  ((forall u, In u useCases -> NoHit industry u) ->
   scoreIndustryMatch (VStr industry) (stringArray useCases) = Ok 0).
Proof.
  intros Hi Hu. unfold stringArray.
  rewrite scoreIndustryMatch_array
    by (assumption || (destruct useCases; [congruence | discriminate])).
  split.
  - intros before useCase after -> Hbefore.
    rewrite List.map_app. cbn [List.map].
    rewrite industryLoop_skip by assumption.
    split.
    + apply industryLoop_step.
    + intros Hn Ha. split.
      * now apply industryLoop_step.
      * intros later. rewrite scoreIndustryMatch_array.
        -- rewrite industryLoop_skip by assumption. now apply industryLoop_step.
        -- assumption.
        -- destruct before; discriminate.
  - intros Hall.
    rewrite <- (List.app_nil_r (List.map VStr useCases)).
    now rewrite industryLoop_skip.
Qed.

Lemma scoreIndustryMatch_first_hit_witness :
  scoreIndustryMatch (VStr "Retail") (stringArray ["Tech"; "Retail"]) = Ok 10 /\
  scoreIndustryMatch (VStr "Retail") (stringArray ["Retail"; "Tech"]) = Ok 20.
Proof.
  split.
  - refine (proj1 (proj2 (proj1 (scoreIndustryMatch_first_hit
              "Retail" ["Tech"; "Retail"] _ _) [] "Tech" ["Retail"] eq_refl _) _ _)).
    + discriminate.
    + discriminate.
    + intros u [].
    + intros H. apply either_test in H. vm_compute in H. discriminate H.
    + apply adjacent_test. reflexivity.
  - refine (proj1 (proj1 (scoreIndustryMatch_first_hit
              "Retail" ["Retail"; "Tech"] _ _) [] "Retail" ["Tech"] eq_refl _) _).
    + discriminate.
    + discriminate.
    + intros u [].
    + apply either_test. reflexivity.
Defined.

(** ** Data completeness *)

Lemma everyM_true {A : Type} (f : A -> Res bool) (l : list A) :
  everyM f l = Ok true <-> forall x, In x l -> f x = Ok true.
Proof.
  induction l as [|x l IH]; simpl.
  - split; [intros _ y [] | reflexivity].
  - destruct (f x) as [[|]|e] eqn:E; simpl.
    + rewrite IH. split.
      * intros H y [<-|Hy]; auto.
      * intros H y Hy. apply H. now right.
    + split; [discriminate|]. intros H. specialize (H x (or_introl eq_refl)). congruence.
    + split; [discriminate|]. intros H. specialize (H x (or_introl eq_refl)). congruence.
Qed.

Lemma everyM_false {A : Type} (f : A -> Res bool) (l : list A) :
  (forall x, In x l -> exists b, f x = Ok b) ->
  (exists x, In x l /\ f x = Ok false) ->
  everyM f l = Ok false.
Proof.
  induction l as [|x l IH]; simpl; intros Hall [y [Hy Hf]].
  - destruct Hy.
  - destruct (Hall x (or_introl eq_refl)) as [b Hb]. rewrite Hb. simpl.
    destruct b; [|reflexivity].
    apply IH.
    + intros z Hz. apply Hall. now right.
    + destruct Hy as [->|Hy]; [congruence|]. now exists y.
Qed.

Lemma fieldPresent_true (lead : JSValue) (field : string) :
  fieldPresent lead field = Ok true <-> Populated lead field.
Proof.
  unfold Populated, fieldPresent. split.
  - destruct (get lead field) as [v|e] eqn:E; simpl; [|discriminate].
    destruct (truthy v) eqn:T; [|discriminate].
    destruct v; simpl; try discriminate.
    intros H. exists s. split; [reflexivity|].
    destruct (trim s); [discriminate | discriminate].
  - intros [s [-> Hs]]. simpl.
    destruct s as [|c s]; [now destruct Hs|]. simpl.
    destruct (trim (String c s)); [now destruct Hs | reflexivity].
Qed.

Lemma fieldPresent_false (lead : JSValue) (field : string) :
  MissingOrBlank lead field -> fieldPresent lead field = Ok false.
Proof.
  unfold fieldPresent.
  intros [v [-> [-> | [-> | [s [-> Hs]]]]]]; simpl; try reflexivity.
  destruct s as [|c s]; [reflexivity|]. simpl. now rewrite Hs.
Qed.

Lemma fieldPresent_returns (lead : JSValue) (field : string) :
  (exists v, get lead field = Ok v /\
             (v = VUndefined \/ v = VNull \/ exists s, v = VStr s)) ->
  exists b, fieldPresent lead field = Ok b.
Proof.
  unfold fieldPresent.
  intros [v [-> [-> | [-> | [s ->]]]]]; simpl; eauto.
  destruct (negb (s =? "")%string); simpl; eauto.
Qed.

Lemma scoreDataCompleteness_ten (lead : JSValue) :
  scoreDataCompleteness lead = Ok 10 <->
  forall field, In field requiredFields -> Populated lead field.
Proof.
  unfold scoreDataCompleteness.
  transitivity (everyM (fieldPresent lead) requiredFields = Ok true).
  - destruct (everyM _ requiredFields) as [[|]|e]; simpl; split; congruence.
  - rewrite everyM_true. split; intros H field Hin.
    + apply fieldPresent_true. now apply H.
    + apply fieldPresent_true. now apply H.
Qed.

Lemma scoreDataCompleteness_values (lead : JSValue) (n : Z) :
  scoreDataCompleteness lead = Ok n -> n = 0 \/ n = 10.
Proof.
  unfold scoreDataCompleteness.
  destruct (everyM _ requiredFields) as [[|]|e]; simpl; intros H;
    inversion H; auto.
Qed.

(** C7.  The completeness sub-score is 10 exactly when each of name, role,
    company, industry and location is a string that is not empty after
    trimming; for a lead whose fields are strings where present, it is 0 as
    soon as one of the five is missing or blank. *)
Theorem scoreDataCompleteness_all_or_nothing (lead : JSValue) :
  (scoreDataCompleteness lead = Ok 10 <->
   forall field, In field requiredFields -> Populated lead field) /\
  (StringFields lead ->
   (exists field, In field requiredFields /\ MissingOrBlank lead field) ->
   scoreDataCompleteness lead = Ok 0).
Proof.
  split.
  - apply scoreDataCompleteness_ten.
  - intros Hs [field [Hin Hm]]. unfold scoreDataCompleteness.
    rewrite (everyM_false (fieldPresent lead) requiredFields).
    + reflexivity.
    + intros f Hf. apply fieldPresent_returns. now apply Hs.
    + exists field. split; [assumption | now apply fieldPresent_false].
Qed.

Lemma scoreDataCompleteness_all_or_nothing_witness :
  scoreDataCompleteness
    (VObj [("name", VStr "Ava Patel"); ("role", VStr "   ");
           ("company", VStr "FlowMetrics"); ("industry", VStr "B2B SaaS");
           ("location", VStr "San Francisco")]) = Ok 0.
Proof.
  apply (proj2 (scoreDataCompleteness_all_or_nothing _)).
  - intros field Hin. simpl in Hin.
    repeat (destruct Hin as [<- | Hin];
            [eexists; split; [reflexivity | right; right; eexists; reflexivity]|]).
    destruct Hin.
  - exists "role". split.
    + simpl. tauto.
    + eexists. split; [reflexivity|]. right. right. eexists. split; reflexivity.
Defined.

(** ** The rule breakdown *)

Lemma scoreRoleRelevance_values (role : JSValue) (n : Z) :
  scoreRoleRelevance role = Ok n -> n = 0 \/ n = 10 \/ n = 20.
Proof.
  unfold scoreRoleRelevance.
  destruct (negb (truthy role)); [intros H; inversion H; auto|].
  destruct (callToLowerCase role) as [l|e]; cbn [bind]; [|discriminate].
  destruct (existsb _ decisionMakerKeywords); [intros H; inversion H; auto|].
  destruct (existsb _ influencerKeywords); intros H; inversion H; auto.
Qed.

Lemma industryLoop_values (industryLower : string) (useCases : list JSValue) (n : Z) :
  industryLoop industryLower useCases = Ok n -> n = 0 \/ n = 10 \/ n = 20.
Proof.
  induction useCases as [|u rest IH]; cbn [industryLoop].
  - intros H; inversion H; auto.
  - destruct (callToLowerCase u) as [l|e]; cbn [bind]; [|discriminate].
    destruct (includes l industryLower || includes industryLower l)%bool;
      [intros H; inversion H; auto|].
    destruct (existsb _ adjacentIndustries); [intros H; inversion H; auto|].
    exact IH.
Qed.

Lemma scoreIndustryMatch_values (industry idealUseCases : JSValue) (n : Z) :
  scoreIndustryMatch industry idealUseCases = Ok n -> n = 0 \/ n = 10 \/ n = 20.
Proof.
  unfold scoreIndustryMatch.
  destruct (negb (truthy industry)); [intros H; inversion H; auto|].
  destruct (negb (truthy idealUseCases)); [intros H; inversion H; auto|].
  destruct (get idealUseCases "length") as [len|e]; cbn [bind]; [|discriminate].
  destruct (isZero len); [intros H; inversion H; auto|].
  destruct (callToLowerCase industry) as [l|e]; cbn [bind]; [|discriminate].
  destruct (iterate idealUseCases) as [ucs|e]; cbn [bind]; [|discriminate].
  apply industryLoop_values.
Qed.

Lemma falsy_of_missing (v : JSValue) :
  v = VUndefined \/ v = VNull \/ v = VStr "" -> truthy v = false.
Proof. intros [-> | [-> | ->]]; reflexivity. Qed.

(** What the [try] block of [calculateRuleScore] computes when it returns. *)
Lemma calculateRuleScore_returns (lead offer : JSValue) :
  exists r, calculateRuleScore lead offer = Ok r /\
    ((roleScore r = 0 /\ industryScore r = 0 /\ completenessScore r = 0 /\
      totalScore r = 0)
     \/
     (exists role industry ideal_use_cases,
         get lead "role" = Ok role /\
         get lead "industry" = Ok industry /\
         get offer "ideal_use_cases" = Ok ideal_use_cases /\
         scoreRoleRelevance role = Ok (roleScore r) /\
         scoreIndustryMatch industry ideal_use_cases = Ok (industryScore r) /\
         scoreDataCompleteness lead = Ok (completenessScore r) /\
         totalScore r = roleScore r + industryScore r + completenessScore r)).
Proof.
  unfold calculateRuleScore.
  destruct (get lead "role") as [role|e] eqn:Er; simpl;
    [|eexists; split; [reflexivity | left; auto]].
  destruct (scoreRoleRelevance role) as [rs|e] eqn:Es; simpl;
    [|eexists; split; [reflexivity | left; auto]].
  destruct (get lead "industry") as [industry|e] eqn:Ei; simpl;
    [|eexists; split; [reflexivity | left; auto]].
  destruct (get offer "ideal_use_cases") as [ucs|e] eqn:Eu; simpl;
    [|eexists; split; [reflexivity | left; auto]].
  destruct (scoreIndustryMatch industry ucs) as [ms|e] eqn:Em; simpl;
    [|eexists; split; [reflexivity | left; auto]].
  destruct (scoreDataCompleteness lead) as [cs|e] eqn:Ec; simpl;
    [|eexists; split; [reflexivity | left; auto]].
  eexists; split; [reflexivity|]. right. exists role, industry, ucs. simpl.
  repeat split; assumption.
Qed.

Lemma calculateRuleScore_range (lead offer : JSValue) (r : RuleResult) :
  calculateRuleScore lead offer = Ok r ->
  (roleScore r = 0 \/ roleScore r = 10 \/ roleScore r = 20) /\
  (industryScore r = 0 \/ industryScore r = 10 \/ industryScore r = 20) /\
  (completenessScore r = 0 \/ completenessScore r = 10) /\
  totalScore r = roleScore r + industryScore r + completenessScore r.
Proof.
  intros H. destruct (calculateRuleScore_returns lead offer) as [r' [H' Hr]].
  rewrite H in H'. injection H' as <-.
  destruct Hr as [(-> & -> & -> & ->) | (role & ind & ucs & _ & _ & _ & Hs & Hm & Hc & Ht)].
  - auto 10.
  - repeat split.
    + eapply scoreRoleRelevance_values; eassumption.
    + eapply scoreIndustryMatch_values; eassumption.
    + eapply scoreDataCompleteness_values; eassumption.
    + assumption.
Qed.

(** C8.  [calculateRuleScore] returns a breakdown for every lead and offer,
    whatever their shape; its total is the sum of the three sub-scores; a
    missing role gives role score 0, a missing industry or a missing or
    empty list of use cases gives industry score 0, and a missing required
    field gives completeness score 0. *)
Theorem calculateRuleScore_never_raises (lead offer : JSValue) :
  exists r,
    calculateRuleScore lead offer = Ok r /\
    totalScore r = roleScore r + industryScore r + completenessScore r /\
    (Missing lead "role" -> roleScore r = 0) /\
    (Missing lead "industry" -> industryScore r = 0) /\
    (Missing offer "ideal_use_cases" \/
     get offer "ideal_use_cases" = Ok (VArr []) -> industryScore r = 0) /\
    ((exists field, In field requiredFields /\ Missing lead field) ->
     completenessScore r = 0).
Proof.
  destruct (calculateRuleScore_returns lead offer) as [r [Hr Hcase]].
  exists r. split; [assumption|].
  destruct Hcase as [(Hr0 & Hi0 & Hc0 & Ht0)
                    | (role & ind & ucs & Er & Ei & Eu & Hs & Hm & Hc & Ht)].
  - rewrite Hr0, Hi0, Hc0, Ht0. repeat split; reflexivity.
  - split; [assumption|]. repeat split.
    + intros Hmiss. apply Hmiss in Er. apply falsy_of_missing in Er.
      unfold scoreRoleRelevance in Hs. rewrite Er in Hs. simpl in Hs. congruence.
    + intros Hmiss. apply Hmiss in Ei. apply falsy_of_missing in Ei.
      unfold scoreIndustryMatch in Hm. rewrite Ei in Hm. simpl in Hm. congruence.
    + intros [Hmiss | Hempty].
      * apply Hmiss in Eu. apply falsy_of_missing in Eu.
        unfold scoreIndustryMatch in Hm. rewrite Eu in Hm.
        destruct (negb (truthy ind)); simpl in Hm; congruence.
      * rewrite Hempty in Eu. injection Eu as <-.
        unfold scoreIndustryMatch in Hm.
        destruct (negb (truthy ind)); simpl in Hm; congruence.
    + intros [field [Hin Hmiss]].
      destruct (scoreDataCompleteness_values _ _ Hc) as [H0 | H10]; [assumption|].
      exfalso. rewrite H10 in Hc.
      destruct (proj1 (scoreDataCompleteness_ten lead) Hc field Hin) as [s [Hg Hs']].
      destruct (Hmiss _ Hg) as [Hv | [Hv | Hv]]; try discriminate.
      injection Hv as ->. now apply Hs'.
Qed.

Lemma calculateRuleScore_never_raises_witness :
  exists r,
    calculateRuleScore (VObj [("name", VStr "John Doe"); ("role", VNum 7)]) VNull = Ok r /\
    totalScore r = roleScore r + industryScore r + completenessScore r /\
    industryScore r = 0.
Proof.
  destruct (calculateRuleScore_never_raises
              (VObj [("name", VStr "John Doe"); ("role", VNum 7)]) VNull)
    as [r (Hr & Ht & _ & Hi & _)].
  exists r. repeat split; [assumption | assumption |].
  apply Hi. intros v Hv. simpl in Hv. injection Hv as <-. now left.
Defined.

(** ** The reply parser *)

Import AIScoring.

Section MatcherFacts.
Context {R : Type}.

Lemma literal_complete (p m rest : string) (k : string -> string -> option R) :
  ciMatches p m = true -> literal p k (m ++ rest) = k m rest.
Proof.
  revert m k. induction p as [|pc p IH]; intros m k H.
  - destruct m; [reflexivity | discriminate].
  - destruct m as [|c m]; [discriminate|].
    simpl in H. apply andb_true_iff in H as [Hc Hm].
    simpl. rewrite Hc. now rewrite IH.
Qed.

Lemma literal_sound (p s : string) (k : string -> string -> option R) (r : R) :
  literal p k s = Some r ->
  exists m rest, s = m ++ rest /\ ciMatches p m = true /\ k m rest = Some r.
Proof.
  revert s k. induction p as [|pc p IH]; intros s k H.
  - exists "", s. auto.
  - destruct s as [|c s]; [discriminate|]. simpl in H.
    destruct (ciEq pc c) eqn:Ec; [|discriminate].
    apply IH in H as [m [rest [-> [Hm Hk]]]].
    exists (String c m), rest. simpl. rewrite Ec. auto.
Qed.

Lemma starGreedy_complete (k : string -> option R) (space rest : string) :
  blank space = true -> k rest <> None ->
  starGreedy isWhiteSpace k (space ++ rest) <> None.
Proof.
  induction space as [|c space IH]; intros Hb Hk.
  - simpl. destruct rest as [|c rest]; simpl; [assumption|].
    destruct (isWhiteSpace c); [|assumption].
    destruct (starGreedy isWhiteSpace k rest); [discriminate | assumption].
  - simpl in Hb. apply andb_true_iff in Hb as [Hc Hb].
    simpl. rewrite Hc. specialize (IH Hb Hk).
    destruct (starGreedy isWhiteSpace k (space ++ rest)); [discriminate | contradiction].
Qed.

Lemma starGreedy_sound (k : string -> option R) (s : string) (r : R) :
  starGreedy isWhiteSpace k s = Some r ->
  exists space rest, s = space ++ rest /\ blank space = true /\ k rest = Some r.
Proof.
  induction s as [|c s IH]; intros H.
  - exists "", "". auto.
  - simpl in H. destruct (isWhiteSpace c) eqn:Ec.
    + destruct (starGreedy isWhiteSpace k s) as [r'|] eqn:E.
      * injection H as ->. destruct (IH eq_refl) as [space [rest [-> [Hb Hk]]]].
        exists (String c space), rest. simpl. rewrite Ec. auto.
      * exists "", (String c s). auto.
    + exists "", (String c s). auto.
Qed.

Lemma plusLazyFrom_complete (k : string -> string -> option R)
      (text rest acc : string) :
  oneLine text = true -> k (acc ++ text) rest <> None ->
  plusLazyFrom isDot k acc (text ++ rest) <> None.
Proof.
  revert acc. induction text as [|c text IH]; intros acc Hl Hk.
  - rewrite append_empty_r in Hk. simpl.
    destruct rest; simpl; destruct (k acc _); congruence.
  - simpl in Hl. apply andb_true_iff in Hl as [Hc Hl].
    simpl. destruct (k acc (String c (text ++ rest))); [discriminate|].
    rewrite Hc. apply IH; [assumption|].
    now rewrite append_assoc.
Qed.

Lemma plusLazy_complete (k : string -> string -> option R) (text rest : string) :
  text <> "" -> oneLine text = true -> k text rest <> None ->
  plusLazy isDot k (text ++ rest) <> None.
Proof.
  intros Hne Hl Hk. destruct text as [|c text]; [congruence|].
  simpl in Hl. apply andb_true_iff in Hl as [Hc Hl].
  simpl. rewrite Hc. now apply plusLazyFrom_complete.
Qed.

Lemma plusLazyFrom_sound (k : string -> string -> option R)
      (s acc : string) (r : R) :
  plusLazyFrom isDot k acc s = Some r ->
  exists text rest,
    s = text ++ rest /\ oneLine text = true /\ k (acc ++ text) rest = Some r.
Proof.
  revert acc. induction s as [|c s IH]; intros acc H; simpl in H.
  - exists "", "". rewrite (append_empty_r acc).
    destruct (k acc ""); [auto | discriminate].
  - destruct (k acc (String c s)) eqn:E.
    + exists "", (String c s). rewrite (append_empty_r acc).
      split; [reflexivity | split; [reflexivity | congruence]].
    + destruct (isDot c) eqn:Ec; [|discriminate].
      apply IH in H as [text [rest [-> [Hl Hk]]]].
      exists (String c text), rest. simpl. rewrite Ec.
      rewrite append_assoc in Hk. auto.
Qed.

Lemma plusLazy_sound (k : string -> string -> option R) (s : string) (r : R) :
  plusLazy isDot k s = Some r ->
  exists text rest,
    s = text ++ rest /\ text <> "" /\ oneLine text = true /\
    k text rest = Some r.
Proof.
  destruct s as [|c s]; simpl; [discriminate|].
  destruct (isDot c) eqn:Ec; [|discriminate]. intros H.
  apply plusLazyFrom_sound in H as [text [rest [-> [Hl Hk]]]].
  exists (String c text), rest. simpl. rewrite Ec.
  repeat split; [discriminate | assumption | assumption].
Qed.

Lemma search_complete (m : string -> option R) (before s : string) :
  m s <> None -> search m (before ++ s) <> None.
Proof.
  intros H. induction before as [|c before IH]; simpl.
  - destruct s; simpl; destruct (m _); congruence.
  - destruct (m (String c (before ++ s))); [discriminate | assumption].
Qed.

Lemma search_sound (m : string -> option R) (s : string) (r : R) :
  search m s = Some r -> exists before s', s = before ++ s' /\ m s' = Some r.
Proof.
  induction s as [|c s IH]; simpl; intros H.
  - exists "", "". destruct (m ""); [auto | discriminate].
  - destruct (m (String c s)) eqn:E.
    + exists "", (String c s). split; [reflexivity|]. congruence.
    + apply IH in H as [before [s' [-> Hm]]].
      exists (String c before), s'. auto.
Qed.
End MatcherFacts.

Lemma intentWord_complete (word after : string) :
  IntentWord word -> intentWord (word ++ after) <> None.
Proof.
  unfold intentWord, orElse. intros [H | [H | H]];
    rewrite (literal_complete _ _ _ _ H);
    repeat (destruct (literal _ _ _)); discriminate.
Qed.

Lemma intentWord_sound (s group : string) :
  intentWord s = Some group ->
  IntentWord group /\ exists after, s = group ++ after.
Proof.
  unfold intentWord, orElse, IntentWord. intros H.
  destruct (literal "High" _ s) eqn:E1.
  { apply literal_sound in E1 as [m [rest [-> [Hm Hk]]]].
    injection Hk as <-. injection H as <-. split; [auto | now exists rest]. }
  destruct (literal "Medium" _ s) eqn:E2.
  { apply literal_sound in E2 as [m [rest [-> [Hm Hk]]]].
    injection Hk as <-. injection H as <-. split; [auto | now exists rest]. }
  apply literal_sound in H as [m [rest [-> [Hm Hk]]]].
  injection Hk as <-. split; [auto | now exists rest].
Qed.

Lemma matchIntent_complete (response : string) :
  IntentPatternPresent response -> matchIntent response <> None.
Proof.
  intros (before & label & space & word & after & -> & Hl & Hs & Hw).
  unfold matchIntent. apply search_complete.
  rewrite (literal_complete _ _ _ _ Hl).
  apply starGreedy_complete; [assumption|].
  now apply intentWord_complete.
Qed.

Lemma matchIntent_sound (response group : string) :
  matchIntent response = Some group ->
  IntentWord group /\ IntentPatternPresent response.
Proof.
  unfold matchIntent. intros H.
  apply search_sound in H as [before [s' [-> H]]].
  apply literal_sound in H as [label [s1 [-> [Hl H]]]].
  apply starGreedy_sound in H as [space [s2 [-> [Hs H]]]].
  apply intentWord_sound in H as [Hw [after ->]].
  split; [assumption|].
  exists before, label, space, group, after. auto.
Qed.

Lemma matchReasoning_complete (response : string) :
  ReasoningPatternPresent response -> matchReasoning response <> None.
Proof.
  intros (before & label & space & text & after & -> & Hl & Hs & Hne & Ho & Hend).
  unfold matchReasoning. apply search_complete.
  rewrite (literal_complete _ _ _ _ Hl).
  apply starGreedy_complete; [assumption|].
  apply plusLazy_complete; [assumption | assumption |].
  now rewrite Hend.
Qed.

Lemma matchReasoning_sound (response group : string) :
  matchReasoning response = Some group -> ReasoningPatternPresent response.
Proof.
  unfold matchReasoning. intros H.
  apply search_sound in H as [before [s' [-> H]]].
  apply literal_sound in H as [label [s1 [-> [Hl H]]]].
  apply starGreedy_sound in H as [space [s2 [-> [Hs H]]]].
  apply plusLazy_sound in H as [text [after [-> [Hne [Ho H]]]]].
  exists before, label, space, text, after.
  repeat split; try assumption.
  destruct (newlineOrEnd after); [reflexivity | discriminate].
Qed.

Lemma lowerChar_upperChar (c : ascii) : lowerChar (upperChar c) = lowerChar c.
Proof.
  destruct c as [b0 b1 b2 b3 b4 b5 b6 b7].
  destruct b0, b1, b2, b3, b4, b5, b6, b7; reflexivity.
Qed.

Lemma toLowerCase_toUpperCase (s : string) :
  toLowerCase (toUpperCase s) = toLowerCase s.
Proof.
  induction s as [|c s IH]; simpl; [reflexivity|].
  now rewrite lowerChar_upperChar, IH.
Qed.

Lemma ciMatches_toUpperCase (p m : string) :
  ciMatches p m = true -> toUpperCase m = toUpperCase p.
Proof.
  revert m. induction p as [|pc p IH]; intros [|c m] H; try discriminate.
  - reflexivity.
  - simpl in H. apply andb_true_iff in H as [Hc Hm].
    unfold ciEq in Hc. apply Ascii.eqb_eq in Hc.
    simpl. now rewrite <- Hc, (IH m Hm).
Qed.

(** [group.charAt(0).toUpperCase() + group.slice(1).toLowerCase()] of a
    match of [p] is the same as of [p] itself. *)
Lemma capitalise_ciMatches (p group : string) :
  ciMatches p group = true ->
  toUpperCase (charAt0 group) ++ toLowerCase (slice1 group)
  = toUpperCase (charAt0 p) ++ toLowerCase (slice1 p).
Proof.
  intros H. pose proof (ciMatches_toUpperCase _ _ H) as Hu.
  destruct p as [|pc p]; destruct group as [|c group]; try discriminate.
  - reflexivity.
  - simpl in Hu. injection Hu as Hc Hrest. simpl.
    rewrite Hc. f_equal.
    rewrite <- (toLowerCase_toUpperCase group), Hrest.
    apply toLowerCase_toUpperCase.
Qed.

Lemma capitalise_IntentWord (group : string) :
  IntentWord group ->
  let intent := toUpperCase (charAt0 group) ++ toLowerCase (slice1 group) in
  intent = "High" \/ intent = "Medium" \/ intent = "Low".
Proof.
  intros [H | [H | H]]; simpl; rewrite (capitalise_ciMatches _ _ H); auto.
Qed.

Lemma parseAIResponse_returns (response : string) :
  parseAIResponse response =
  Ok {| parsedIntent :=
          match matchIntent response with
          | Some group => toUpperCase (charAt0 group) ++ toLowerCase (slice1 group)
          | None => "Medium"
          end;
        parsedReasoning :=
          match matchReasoning response with
          | Some group => trim group
          | None => "AI analysis completed"
          end |}.
Proof. reflexivity. Qed.

Lemma parsedIntent_values (response : string) (p : ParsedResponse) :
  parseAIResponse response = Ok p ->
  parsedIntent p = "High" \/ parsedIntent p = "Medium" \/ parsedIntent p = "Low".
Proof.
  rewrite parseAIResponse_returns. intros H. injection H as <-. simpl.
  destruct (matchIntent response) as [group|] eqn:E; [|auto].
  apply capitalise_IntentWord. now apply matchIntent_sound in E.
Qed.

Lemma mapIntentToScore_values (intent : string) :
  intent = "High" \/ intent = "Medium" \/ intent = "Low" ->
  mapIntentToScore intent = Points 10 \/ mapIntentToScore intent = Points 30 \/
  mapIntentToScore intent = Points 50.
Proof. intros [-> | [-> | ->]]; cbv; auto. Qed.

Lemma mapIntentToScore_default (intent : string) :
  intent <> "High" -> intent <> "Medium" -> intent <> "Low" ->
  ~ In intent objectPrototypeKeys ->
  mapIntentToScore intent = Points 30.
Proof.
  intros H1 H2 H3 Hp. unfold mapIntentToScore, mapping, ownProperty.
  apply String.eqb_neq in H1, H2, H3. rewrite H1, H2, H3.
  destruct (existsb (String.eqb intent) objectPrototypeKeys) eqn:E; [|reflexivity].
  apply existsb_exists in E as [k [Hin Hk]].
  apply String.eqb_eq in Hk. subst k. contradiction.
Qed.

(** C5, as the code has it.  The parser returns for every reply.  When the
    intent pattern is absent the intent is Medium, which maps to score 30;
    the reasoning is looked for on its own, and is the generic placeholder
    when the reasoning pattern is absent.  An intent value other than High,
    Medium and Low that is not the name of a property inherited from
    Object.prototype maps to 30. *)
Theorem parseAIResponse_defaults (response : string) :
  (exists p,
      parseAIResponse response = Ok p /\
      (~ IntentPatternPresent response ->
       parsedIntent p = "Medium" /\
       mapIntentToScore (parsedIntent p) = Points 30) /\
      (~ ReasoningPatternPresent response ->
       parsedReasoning p = "AI analysis completed")) /\
  (forall intent : string,
      intent <> "High" -> intent <> "Medium" -> intent <> "Low" ->
      ~ In intent objectPrototypeKeys ->
      mapIntentToScore intent = Points 30).
Proof.
  split; [|apply mapIntentToScore_default].
  eexists. split; [apply parseAIResponse_returns|]. simpl. split.
  - intros Habsent. destruct (matchIntent response) as [group|] eqn:E.
    + exfalso. apply Habsent. now apply matchIntent_sound in E.
    + split; reflexivity.
  - intros Habsent. destruct (matchReasoning response) as [group|] eqn:E.
    + exfalso. apply Habsent. now apply matchReasoning_sound in E.
    + reflexivity.
Qed.

Lemma parseAIResponse_defaults_witness :
  exists p,
    parseAIResponse "I cannot classify this lead." = Ok p /\
    parsedIntent p = "Medium" /\
    mapIntentToScore (parsedIntent p) = Points 30 /\
    parsedReasoning p = "AI analysis completed".
Proof.
  destruct (proj1 (parseAIResponse_defaults "I cannot classify this lead."))
    as [p (Hp & Hi & Hr)].
  exists p. split; [assumption|].
  assert (Hni : ~ IntentPatternPresent "I cannot classify this lead.").
  { intros H. apply matchIntent_complete in H. apply H. reflexivity. }
  assert (Hnr : ~ ReasoningPatternPresent "I cannot classify this lead.").
  { intros H. apply matchReasoning_complete in H. apply H. reflexivity. }
  destruct (Hi Hni) as [H1 H2].
  repeat split; [assumption | assumption | now apply Hr].
Defined.

(** C5 as stated fails: a reply without the intent pattern but with a
    reasoning line gets intent Medium and the reasoning of that line, not
    the generic placeholder. *)
Lemma parseAIResponse_reasoning_kept :
  let response := "REASONING: Senior buyer in the target industry." in
  ~ IntentPatternPresent response /\
  parseAIResponse response =
    Ok {| parsedIntent := "Medium";
          parsedReasoning := "Senior buyer in the target industry." |} /\
  "Senior buyer in the target industry." <> "AI analysis completed".
Proof.
  repeat split.
  - intros H. apply matchIntent_complete in H. apply H. reflexivity.
  - discriminate.
Qed.

(** ** The fallback heuristic *)

Lemma someM_pure {A : Type} (f : A -> bool) (l : list A) :
  someM (fun x => Ok (f x)) l = Ok (existsb f l).
Proof.
  induction l as [|x l IH]; simpl; [reflexivity|].
  destruct (f x); [reflexivity | exact IH].
Qed.

Lemma someM_ext {A : Type} (f g : A -> Res bool) (l : list A) :
  (forall x, In x l -> f x = g x) -> someM f l = someM g l.
Proof.
  induction l as [|x l IH]; simpl; intros H; [reflexivity|].
  rewrite (H x (or_introl eq_refl)).
  destruct (g x) as [[|]|e]; simpl; auto.
Qed.

Lemma someM_map {A B : Type} (h : A -> B) (f : B -> Res bool) (l : list A) :
  someM f (List.map h l) = someM (fun x => f (h x)) l.
Proof.
  induction l as [|x l IH]; simpl; [reflexivity|].
  destruct (f (h x)) as [[|]|e]; simpl; auto.
Qed.

Lemma strongRoleFlag_spec (role : option string) :
  strongRoleFlag role = true <-> StrongRole role.
Proof.
  unfold StrongRole. destruct role as [r|]; cbn [strongRoleFlag].
  - rewrite existsb_includes. split.
    + intros H. now exists r.
    + intros [r' [Hr H]]. now injection Hr as <-.
  - split; [discriminate | intros [r [Hr _]]; discriminate].
Qed.

Lemma relevantIndustryFlag_spec (industry : option string) (useCases : list string) :
  relevantIndustryFlag industry useCases = true <-> UseCaseInIndustry industry useCases.
Proof.
  unfold UseCaseInIndustry. destruct industry as [i|]; cbn [relevantIndustryFlag].
  - rewrite existsb_exists. split.
    + intros [u [Hin H]]. exists i, u. now rewrite <- includes_spec.
    + intros [i' [u [Hi [Hin H]]]]. injection Hi as <-.
      exists u. now rewrite includes_spec.
  - split; [discriminate | intros [i [u [Hi _]]]; discriminate].
Qed.

Lemma getFallbackScore_flags (lead offer : JSValue)
      (rv iv : JSValue) (role industry : option string) (useCases : list string) :
  get lead "role" = Ok rv -> fieldIs rv role ->
  get lead "industry" = Ok iv -> fieldIs iv industry ->
  get offer "ideal_use_cases" = Ok (stringArray useCases) ->
  getFallbackScore lead offer =
  Ok (if (strongRoleFlag role && relevantIndustryFlag industry useCases)%bool
      then fallbackHigh
      else if (strongRoleFlag role || relevantIndustryFlag industry useCases)%bool
           then fallbackMedium
           else fallbackLow).
Proof.
  intros Hr Fr Hi Fi Hu. unfold getFallbackScore.
  rewrite Hr, Hi, Hu. cbn [bind].
  assert (E1 : someM (fun keyword : string =>
                        if nullish rv then Ok false
                        else (roleLower <- callToLowerCase rv ;;
                              Ok (includes roleLower keyword)))
                     strongRoleKeywords = Ok (strongRoleFlag role)).
  { destruct role as [r|]; simpl in Fr.
    - subst rv. apply someM_pure.
    - transitivity (someM (fun _ : string => Ok false) strongRoleKeywords).
      + apply someM_ext. intros x _. destruct Fr as [-> | ->]; reflexivity.
      + reflexivity. }
  rewrite E1. cbn [bind].
  assert (E2 : callSome (stringArray useCases)
                 (fun useCase : JSValue =>
                    if nullish iv then Ok false
                    else (industryLower <- callToLowerCase iv ;;
                          useCaseLower <- callToLowerCase useCase ;;
                          Ok (includes industryLower useCaseLower)))
               = Ok (relevantIndustryFlag industry useCases)).
  { unfold stringArray, callSome. rewrite someM_map.
    destruct industry as [i|]; simpl in Fi.
    - subst iv. apply (someM_pure (fun u => includes (toLowerCase i) (toLowerCase u))).
    - transitivity (someM (fun _ : string => Ok false) useCases).
      + apply someM_ext. intros x _. destruct Fi as [-> | ->]; reflexivity.
      + rewrite (someM_pure (fun _ => false)). f_equal. clear.
        induction useCases as [|u l IH]; [reflexivity | exact IH]. }
  rewrite E2. cbn [bind].
  destruct (strongRoleFlag role), (relevantIndustryFlag industry useCases); reflexivity.
Qed.

(** Which path [calculateAIScore] took when it returns. *)
Lemma calculateAIScore_cases (env : Env) (lead offer : JSValue) :
  calculateAIScore env lead offer = getFallbackScore lead offer \/
  (exists client r, openai env = Some client /\
                    calculateOpenAIScore client lead offer = Ok r /\
                    calculateAIScore env lead offer = Ok r) \/
  (exists client r, gemini env = Some client /\
                    calculateGeminiScore client lead offer = Ok r /\
                    calculateAIScore env lead offer = Ok r).
Proof.
  unfold calculateAIScore.
  set (aiProvider := match AI_PROVIDER env with
                     | Some p => if (toLowerCase p =? "")%string then "openai" else toLowerCase p
                     | None => "openai"
                     end).
  assert (Hf : catch (getFallbackScore lead offer)
                     (fun _ => getFallbackScore lead offer)
               = getFallbackScore lead offer).
  { destruct (getFallbackScore lead offer) eqn:E; simpl; congruence. }
  assert (Ho : forall client, openai env = Some client ->
               catch (calculateOpenAIScore client lead offer)
                     (fun _ => getFallbackScore lead offer)
               = getFallbackScore lead offer \/
               exists r, calculateOpenAIScore client lead offer = Ok r /\
                         catch (calculateOpenAIScore client lead offer)
                               (fun _ => getFallbackScore lead offer) = Ok r).
  { intros client _. destruct (calculateOpenAIScore client lead offer) as [r|e]; simpl.
    - right. now exists r.
    - now left. }
  assert (Hg : forall client, gemini env = Some client ->
               catch (calculateGeminiScore client lead offer)
                     (fun _ => getFallbackScore lead offer)
               = getFallbackScore lead offer \/
               exists r, calculateGeminiScore client lead offer = Ok r /\
                         catch (calculateGeminiScore client lead offer)
                               (fun _ => getFallbackScore lead offer) = Ok r).
  { intros client _. destruct (calculateGeminiScore client lead offer) as [r|e]; simpl.
    - right. now exists r.
    - now left. }
  destruct (openai env) as [oc|] eqn:Eo; destruct (gemini env) as [gc|] eqn:Eg;
    destruct (aiProvider =? "openai")%string; destruct (aiProvider =? "gemini")%string;
    try (now left);
    try (destruct (Ho oc eq_refl) as [H | [r [H1 H2]]];
         [now left | right; left; now exists oc, r]);
    try (destruct (Hg gc eq_refl) as [H | [r [H1 H2]]];
         [now left | right; right; now exists gc, r]).
Qed.

(** With no provider configured, or when each configured provider's call
    throws, the intent result is the fallback's. *)
Lemma calculateAIScore_falls_back (env : Env) (lead offer : JSValue) :
  (forall client, openai env = Some client ->
                  exists e, calculateOpenAIScore client lead offer = Throw e) ->
  (forall client, gemini env = Some client ->
                  exists e, calculateGeminiScore client lead offer = Throw e) ->
  calculateAIScore env lead offer = getFallbackScore lead offer.
Proof.
  intros Ho Hg.
  destruct (calculateAIScore_cases env lead offer)
    as [H | [(c & r & Hc & Hr & _) | (c & r & Hc & Hr & _)]].
  - assumption.
  - destruct (Ho c Hc) as [e He]. congruence.
  - destruct (Hg c Hc) as [e He]. congruence.
Qed.

(** What the fallback computes.  With no provider configured, or when the
    provider call throws, the intent result is the fallback's, decided by
    two signals: the lead's role contains, in lower case, one of ceo, cto,
    founder, director, head; and some ideal use case of the offer occurs,
    in lower case, in the lead's industry.  Both give High and 50, exactly
    one gives Medium and 30, none gives Low and 10. *)
Theorem getFallbackScore_classification
        (env : Env) (lead offer rv iv : JSValue)
        (role industry : option string) (useCases : list string) :
  get lead "role" = Ok rv -> fieldIs rv role ->
  get lead "industry" = Ok iv -> fieldIs iv industry ->
  get offer "ideal_use_cases" = Ok (stringArray useCases) ->
  (forall client, openai env = Some client ->
                  exists e, calculateOpenAIScore client lead offer = Throw e) ->
  (forall client, gemini env = Some client ->
                  exists e, calculateGeminiScore client lead offer = Throw e) ->
  calculateAIScore env lead offer = getFallbackScore lead offer /\
  (StrongRole role -> UseCaseInIndustry industry useCases ->
   getFallbackScore lead offer = Ok fallbackHigh) /\
  ((StrongRole role /\ ~ UseCaseInIndustry industry useCases) \/
   (~ StrongRole role /\ UseCaseInIndustry industry useCases) ->
   getFallbackScore lead offer = Ok fallbackMedium) /\
  (~ StrongRole role -> ~ UseCaseInIndustry industry useCases ->
   getFallbackScore lead offer = Ok fallbackLow) /\
  (forall r, role = Some r -> Substring "director" (toLowerCase r) ->
             UseCaseInIndustry industry useCases ->
             getFallbackScore lead offer = Ok fallbackHigh).
Proof.
  intros Hr Fr Hi Fi Hu Ho Hg.
  split; [now apply calculateAIScore_falls_back|].
  rewrite (getFallbackScore_flags lead offer rv iv role industry useCases)
    by assumption.
  pose proof (strongRoleFlag_spec role) as Hs.
  pose proof (relevantIndustryFlag_spec industry useCases) as Hi'.
  assert (Hhigh : StrongRole role -> UseCaseInIndustry industry useCases ->
                  Ok (if (strongRoleFlag role && relevantIndustryFlag industry useCases)%bool
                      then fallbackHigh
                      else if (strongRoleFlag role || relevantIndustryFlag industry useCases)%bool
                           then fallbackMedium else fallbackLow) = Ok fallbackHigh).
  { intros H1 H2. apply Hs in H1. apply Hi' in H2. now rewrite H1, H2. }
  split; [exact Hhigh | split; [|split]].
  - destruct (strongRoleFlag role), (relevantIndustryFlag industry useCases);
      intros [[H1 H2] | [H1 H2]]; try reflexivity;
      solve [ exfalso; apply H2; now apply Hi'
            | exfalso; apply H1; now apply Hs
            | apply Hs in H1; discriminate
            | apply Hi' in H2; discriminate ].
  - destruct (strongRoleFlag role), (relevantIndustryFlag industry useCases);
      intros H1 H2; try reflexivity;
      solve [ exfalso; apply H1; now apply Hs
            | exfalso; apply H2; now apply Hi' ].
  - intros r -> Hd. apply Hhigh. exists r. split; [reflexivity|].
    exists "director". split; [simpl; tauto | assumption].
Qed.

Lemma getFallbackScore_classification_witness :
  getFallbackScore
    (VObj [("name", VStr "Ava Patel"); ("role", VStr "Sales Director");
           ("industry", VStr "B2B SaaS mid-market software")])
    (VObj [("ideal_use_cases", stringArray ["B2B SaaS mid-market"; "Sales teams"])])
  = Ok fallbackHigh.
Proof.
  refine (proj2 (proj2 (proj2 (proj2
    (getFallbackScore_classification
       {| openai := None; gemini := None; AI_PROVIDER := None |}
       (VObj [("name", VStr "Ava Patel"); ("role", VStr "Sales Director");
              ("industry", VStr "B2B SaaS mid-market software")])
       (VObj [("ideal_use_cases", stringArray ["B2B SaaS mid-market"; "Sales teams"])])
       (VStr "Sales Director") (VStr "B2B SaaS mid-market software")
       (Some "Sales Director") (Some "B2B SaaS mid-market software")
       ["B2B SaaS mid-market"; "Sales teams"]
       eq_refl eq_refl eq_refl eq_refl eq_refl _ _)))) "Sales Director" eq_refl _ _).
  - intros client H. discriminate H.
  - intros client H. discriminate H.
  - apply includes_spec. reflexivity.
  - exists "B2B SaaS mid-market software", "B2B SaaS mid-market".
    split; [reflexivity | split; [simpl; tauto | apply includes_spec; reflexivity]].
Defined.

(** C1.  The fallback does not classify as specified.  Here the role
    contains director and the industry, SaaS, is a substring of the ideal
    use case B2B SaaS mid-market, for which High and 50 are specified.
    The fallback, and with it the intent layer when no provider is
    configured, answers Medium and 30: it tests only whether a use case
    occurs in the industry, where the rule layer, on the same two fields,
    tests the containment in both directions. *)
Lemma getFallbackScore_industry_direction :
  let lead := VObj [("name", VStr "Ava Patel"); ("role", VStr "Director");
                    ("company", VStr "FlowMetrics"); ("industry", VStr "SaaS");
                    ("location", VStr "Berlin")] in
  let offer := VObj [("name", VStr "Outreach"); ("value_props", stringArray ["More meetings"]);
                     ("ideal_use_cases", stringArray ["B2B SaaS mid-market"])] in
  StrongRole (Some "Director") /\
  Substring "director" (toLowerCase "Director") /\
  IndustryInUseCase (Some "SaaS") ["B2B SaaS mid-market"] /\
  getFallbackScore lead offer = Ok fallbackMedium /\
  calculateAIScore {| openai := None; gemini := None; AI_PROVIDER := None |} lead offer
  = Ok fallbackMedium.
Proof.
  repeat split.
  - exists "Director". split; [reflexivity|]. exists "director".
    split; [simpl; tauto | apply includes_spec; reflexivity].
  - apply includes_spec. reflexivity.
  - exists "SaaS", "B2B SaaS mid-market".
    split; [reflexivity | split; [simpl; tauto | apply includes_spec; reflexivity]].
Qed.

(** The same on the lead and offer of the README: the rule layer, which
    tests containment in both directions, scores the industry 20, and the
    fallback does not see the match. *)
Example getFallbackScore_readme_sample :
  IndustryInUseCase (Some "B2B SaaS") ["B2B SaaS mid-market"; "Sales teams"] /\
  RuleScoring.scoreIndustryMatch (VStr "B2B SaaS")
    (stringArray ["B2B SaaS mid-market"; "Sales teams"]) = Ok 20 /\
  getFallbackScore sampleLead sampleOffer = Ok fallbackMedium.
Proof.
  repeat split.
  exists "B2B SaaS", "B2B SaaS mid-market".
  split; [reflexivity | split; [simpl; tauto | apply includes_spec; reflexivity]].
Qed.

(** ** The intent layer and the combiner *)

Import Scoring.

Lemma getFallbackScore_score (lead offer : JSValue) (r : IntentResult) :
  getFallbackScore lead offer = Ok r -> IntentScore (AIScoring.score r).
Proof.
  unfold getFallbackScore, IntentScore.
  destruct (someM _ strongRoleKeywords) as [b1|e]; cbn [bind]; [|discriminate].
  destruct (get offer "ideal_use_cases") as [u|e]; cbn [bind]; [|discriminate].
  destruct (callSome u _) as [b2|e]; cbn [bind]; [|discriminate].
  destruct b1, b2; simpl; intros H; injection H as <-; simpl; auto.
Qed.

Lemma parsed_score (response : string) (p : ParsedResponse) :
  parseAIResponse response = Ok p ->
  IntentScore (mapIntentToScore (parsedIntent p)).
Proof.
  intros H. apply parsedIntent_values in H.
  apply mapIntentToScore_values in H. unfold IntentScore. tauto.
Qed.

Lemma calculateOpenAIScore_score (client : OpenAIClient) (lead offer : JSValue)
      (r : IntentResult) :
  calculateOpenAIScore client lead offer = Ok r -> IntentScore (AIScoring.score r).
Proof.
  unfold calculateOpenAIScore.
  destruct (constructPrompt lead offer) as [prompt|e]; cbn [bind catch]; [|discriminate].
  destruct (client systemPrompt prompt) as [content|e]; cbn [bind catch]; [|discriminate].
  destruct (callTrim content) as [aiResponse|e]; cbn [bind catch]; [|discriminate].
  destruct (parseAIResponse aiResponse) as [parsed|e] eqn:E; cbn [bind catch];
    [|discriminate].
  intros H. injection H as <-. cbn [AIScoring.score].
  eapply parsed_score; eassumption.
Qed.

Lemma calculateGeminiScore_score (client : GeminiClient) (lead offer : JSValue)
      (r : IntentResult) :
  calculateGeminiScore client lead offer = Ok r -> IntentScore (AIScoring.score r).
Proof.
  unfold calculateGeminiScore.
  destruct (selectModel client modelNames None) as [model|]; cbn [bind catch];
    [|discriminate].
  destruct (constructPrompt lead offer) as [prompt|e]; cbn [bind catch]; [|discriminate].
  destruct (client model _) as [text|e]; cbn [bind catch]; [|discriminate].
  destruct (callTrim text) as [aiResponse|e]; cbn [bind catch]; [|discriminate].
  destruct (parseAIResponse aiResponse) as [parsed|e] eqn:E; cbn [bind catch];
    [|discriminate].
  intros H. injection H as <-. cbn [AIScoring.score].
  eapply parsed_score; eassumption.
Qed.

Lemma calculateAIScore_score (env : Env) (lead offer : JSValue) (r : IntentResult) :
  calculateAIScore env lead offer = Ok r -> IntentScore (AIScoring.score r).
Proof.
  intros H.
  destruct (calculateAIScore_cases env lead offer)
    as [Hf | [(c & r' & _ & Hc & Hr) | (c & r' & _ & Hc & Hr)]].
  - rewrite Hf in H. eapply getFallbackScore_score; eassumption.
  - rewrite H in Hr. injection Hr as <-. eapply calculateOpenAIScore_score; eassumption.
  - rewrite H in Hr. injection Hr as <-. eapply calculateGeminiScore_score; eassumption.
Qed.

(** What [scoreLead] returns, in terms of the two layers. *)
Lemma scoreLead_returns (env : Env) (lead offer : JSValue) (sl : ScoredLead) :
  scoreLead env lead offer = Ok sl ->
  exists ruleResult aiResult,
    calculateRuleScore lead offer = Ok ruleResult /\
    calculateAIScore env lead offer = Ok aiResult /\
    sl = {| leadProps := spread lead;
            intent := AIScoring.intent aiResult;
            score := plus (totalScore ruleResult) (AIScoring.score aiResult);
            reasoning := AIScoring.reasoning aiResult ++ " Rule-based analysis: "
                           ++ getRuleBreakdown ruleResult;
            ruleScore := totalScore ruleResult;
            aiScore := AIScoring.score aiResult;
            scoreBreakdown := ruleResult |}.
Proof.
  unfold scoreLead.
  destruct (calculateRuleScore lead offer) as [rr|e]; cbn [bind catch]; [|discriminate].
  destruct (calculateAIScore env lead offer) as [ai|e]; cbn [bind catch]; [|discriminate].
  intros H. injection H as <-. now exists rr, ai.
Qed.

(** [scoreLead] returns whenever the intent layer does. *)
Lemma scoreLead_total (env : Env) (lead offer : JSValue) (aiResult : IntentResult) :
  calculateAIScore env lead offer = Ok aiResult ->
  exists sl, scoreLead env lead offer = Ok sl.
Proof.
  intros H. unfold scoreLead.
  destruct (calculateRuleScore_returns lead offer) as [rr [Hr _]].
  rewrite Hr, H. cbn [bind catch]. eauto.
Qed.

(** C10.  The score of every intent result, from a provider's reply or from
    the fallback, is 10, 30 or 50; so the final score of a scored lead is a
    number that is at least 10. *)
Theorem intent_score_values (env : Env) (lead offer : JSValue) :
  (forall r, getFallbackScore lead offer = Ok r -> IntentScore (AIScoring.score r)) /\
  (forall client r, calculateOpenAIScore client lead offer = Ok r ->
                    IntentScore (AIScoring.score r)) /\
  (forall client r, calculateGeminiScore client lead offer = Ok r ->
                    IntentScore (AIScoring.score r)) /\
  (forall r, calculateAIScore env lead offer = Ok r -> IntentScore (AIScoring.score r)) /\
  (forall sl, scoreLead env lead offer = Ok sl ->
              exists n, score sl = Points n /\ 10 <= n).
Proof.
  split; [intros r; apply getFallbackScore_score|].
  split; [intros c r; apply calculateOpenAIScore_score|].
  split; [intros c r; apply calculateGeminiScore_score|].
  split; [intros r; apply calculateAIScore_score|].
  intros sl H. apply scoreLead_returns in H as (rr & ai & Hr & Ha & ->).
  apply calculateAIScore_score in Ha. apply calculateRuleScore_range in Hr.
  cbn [score]. unfold IntentScore in Ha.
  destruct Hr as (H1 & H2 & H3 & ->).
  destruct Ha as [-> | [-> | ->]]; cbn [plus]; eexists; (split; [reflexivity | lia]).
Qed.

(** C4.  The final score of a scored lead is the rule total plus the intent
    score; the rule total is between 0 and 50, the intent score between 10
    and 50, so the final score is between 0 and 100. *)
Theorem scoreLead_final_score (env : Env) (lead offer : JSValue) (sl : ScoredLead) :
  scoreLead env lead offer = Ok sl ->
  exists ruleResult aiResult total points,
    calculateRuleScore lead offer = Ok ruleResult /\
    calculateAIScore env lead offer = Ok aiResult /\
    ruleScore sl = totalScore ruleResult /\
    aiScore sl = AIScoring.score aiResult /\
    aiScore sl = Points points /\
    score sl = Points total /\
    total = ruleScore sl + points /\
    0 <= ruleScore sl <= 50 /\
    10 <= points <= 50 /\
    0 <= total <= 100.
Proof.
  intros H. apply scoreLead_returns in H as (rr & ai & Hr & Ha & ->).
  pose proof (calculateAIScore_score _ _ _ _ Ha) as Hs.
  pose proof (calculateRuleScore_range _ _ _ Hr) as (H1 & H2 & H3 & Ht).
  exists rr, ai. cbn [ruleScore aiScore score].
  unfold IntentScore in Hs.
  destruct Hs as [Hs | [Hs | Hs]]; rewrite Hs; cbn [plus];
    eexists; eexists; repeat split; try eassumption; try reflexivity; lia.
Qed.

Lemma intent_score_values_witness :
  exists sl n,
    scoreLead noProvider sampleLead sampleOffer = Ok sl /\
    score sl = Points n /\ 10 <= n.
Proof.
  pose proof (proj2 (proj2 (proj2 (proj2
    (intent_score_values noProvider sampleLead sampleOffer))))) as H.
  destruct (scoreLead noProvider sampleLead sampleOffer) as [sl|e] eqn:E;
    [|vm_compute in E; discriminate E].
  destruct (H sl eq_refl) as [n [Hn Hle]].
  exists sl, n. auto.
Defined.

Lemma scoreLead_final_score_witness :
  exists sl total,
    scoreLead withProvider sampleLead sampleOffer = Ok sl /\
    score sl = Points total /\ 0 <= total <= 100.
Proof.
  pose proof (scoreLead_final_score withProvider sampleLead sampleOffer) as H.
  destruct (scoreLead withProvider sampleLead sampleOffer) as [sl|e] eqn:E;
    [|vm_compute in E; discriminate E].
  destruct (H sl eq_refl)
    as (rr & ai & total & points & _ & _ & _ & _ & _ & Hs & _ & _ & _ & Ht).
  exists sl, total. auto.
Defined.

Example scoreLead_sample :
  scoreLead withProvider sampleLead sampleOffer =
  Ok {| leadProps := spread sampleLead;
        intent := "High";
        score := Points 100;
        reasoning := "Fits ICP SaaS mid-market and role is decision maker. Rule-based analysis: role relevance (20 pts), industry match (20 pts), data completeness (10 pts)";
        ruleScore := 50;
        aiScore := Points 50;
        scoreBreakdown := {| roleScore := 20; industryScore := 20;
                             completenessScore := 10; totalScore := 50 |} |}.
Proof. reflexivity. Qed.

(** ** The reasoning string *)

Lemma getRuleBreakdown_ruleClause (r : RuleResult) :
  (roleScore r = 0 \/ roleScore r = 10 \/ roleScore r = 20) ->
  (industryScore r = 0 \/ industryScore r = 10 \/ industryScore r = 20) ->
  (completenessScore r = 0 \/ completenessScore r = 10) ->
  getRuleBreakdown r = ruleClause r.
Proof.
  intros H1 H2 H3. unfold getRuleBreakdown, ruleClause.
  destruct H1 as [-> | [-> | ->]]; destruct H2 as [-> | [-> | ->]];
    destruct H3 as [-> | ->]; reflexivity.
Qed.

(** C9.  The reasoning of a scored lead is the reasoning of the intent
    result, then the text [ Rule-based analysis: ], then the rule clause:
    the sub-scores that are not zero, in the order role, industry,
    completeness, each as its label followed by its points in decimal
    between [ (] and [ pts)], joined by a comma and a space, or
    [no rule matches] when all three are zero. *)
Theorem scoreLead_reasoning (env : Env) (lead offer : JSValue) (sl : ScoredLead) :
  scoreLead env lead offer = Ok sl ->
  exists aiResult,
    calculateAIScore env lead offer = Ok aiResult /\
    calculateRuleScore lead offer = Ok (scoreBreakdown sl) /\
    reasoning sl = AIScoring.reasoning aiResult ++ " Rule-based analysis: "
                     ++ ruleClause (scoreBreakdown sl).
Proof.
  intros H. apply scoreLead_returns in H as (rr & ai & Hr & Ha & ->).
  exists ai. cbn [reasoning scoreBreakdown].
  split; [assumption | split; [assumption|]].
  pose proof (calculateRuleScore_range _ _ _ Hr) as (H1 & H2 & H3 & _).
  now rewrite getRuleBreakdown_ruleClause.
Qed.

Lemma scoreLead_reasoning_witness :
  (exists sl,
      scoreLead withProvider sampleLead sampleOffer = Ok sl /\
      reasoning sl =
      "Fits ICP SaaS mid-market and role is decision maker. Rule-based analysis: role relevance (20 pts), industry match (20 pts), data completeness (10 pts)") /\
  (exists sl,
      scoreLead noProvider
                (VObj [("role", VStr "Sales Manager"); ("industry", VStr "Retail")])
                (VObj [("ideal_use_cases", stringArray ["Retail chains"])]) = Ok sl /\
      reasoning sl =
      "Limited indicators of strong fit Rule-based analysis: role relevance (10 pts), industry match (20 pts)") /\
  (exists sl,
      scoreLead noProvider (VObj [("role", VStr "Developer"); ("industry", VStr "Retail")])
                (VObj [("ideal_use_cases", stringArray ["Banking"])]) = Ok sl /\
      reasoning sl = "Limited indicators of strong fit Rule-based analysis: no rule matches").
Proof.
  repeat split.
  - pose proof (scoreLead_reasoning withProvider sampleLead sampleOffer) as H.
    destruct (scoreLead withProvider sampleLead sampleOffer) as [sl|e] eqn:E;
      [|vm_compute in E; discriminate E].
    destruct (H sl eq_refl) as (ai & Ha & Hr & Hreason).
    exists sl. split; [reflexivity|].
    rewrite Hreason. clear Hreason Hr H.
    vm_compute in E. injection E as <-.
    vm_compute in Ha. injection Ha as <-.
    reflexivity.
  - pose proof (scoreLead_reasoning noProvider
                  (VObj [("role", VStr "Sales Manager"); ("industry", VStr "Retail")])
                  (VObj [("ideal_use_cases", stringArray ["Retail chains"])])) as H.
    destruct (scoreLead noProvider _ _) as [sl|e] eqn:E;
      [|vm_compute in E; discriminate E].
    destruct (H sl eq_refl) as (ai & Ha & Hr & Hreason).
    exists sl. split; [reflexivity|].
    rewrite Hreason. clear Hreason Hr H.
    vm_compute in E. injection E as <-.
    vm_compute in Ha. injection Ha as <-.
    reflexivity.
  - pose proof (scoreLead_reasoning noProvider
                  (VObj [("role", VStr "Developer"); ("industry", VStr "Retail")])
                  (VObj [("ideal_use_cases", stringArray ["Banking"])])) as H.
    destruct (scoreLead noProvider _ _) as [sl|e] eqn:E;
      [|vm_compute in E; discriminate E].
    destruct (H sl eq_refl) as (ai & Ha & Hr & Hreason).
    exists sl. split; [reflexivity|].
    rewrite Hreason. clear Hreason Hr H.
    vm_compute in E. injection E as <-.
    vm_compute in Ha. injection Ha as <-.
    reflexivity.
Defined.

(** ** Batches *)

Section PromiseAll.
Context {A : Type}.
Implicit Types (l : list (option A)) (outcomes : list (Res A)).

Lemma setNth_slots l outcomes (i : nat) (v : A) :
  Forall2 SlotOk l outcomes -> nth_error outcomes i = Some (Ok v) ->
  Forall2 SlotOk (setNth i v l) outcomes.
Proof.
  intros H. revert i. induction H as [|slot o l os Hs H IH]; intros i Hi.
  - destruct i; discriminate.
  - destruct i as [|i]; simpl in *.
    + injection Hi as ->. constructor; [reflexivity | assumption].
    + constructor; [assumption | now apply IH].
Qed.

Lemma setNth_count l (i : nat) (v : A) :
  nth_error l i = Some None ->
  countNone l = S (countNone (setNth i v l)).
Proof.
  revert i. induction l as [|slot l IH]; intros i Hi.
  - destruct i; discriminate.
  - destruct i as [|i]; simpl in *.
    + injection Hi as ->. reflexivity.
    + destruct slot; simpl; [now apply IH | f_equal; now apply IH].
Qed.

Lemma setNth_same l (i : nat) (v : A) (slot : option A) :
  nth_error l i = Some slot -> nth_error (setNth i v l) i = Some (Some v).
Proof.
  revert i. induction l as [|s l IH]; intros i Hi.
  - destruct i; discriminate.
  - destruct i as [|i]; simpl in *; [reflexivity | now apply IH].
Qed.

Lemma setNth_other l (i j : nat) (v : A) :
  i <> j -> nth_error (setNth i v l) j = nth_error l j.
Proof.
  revert i j. induction l as [|s l IH]; intros i j Hij.
  - reflexivity.
  - destruct i as [|i], j as [|j]; simpl; try reflexivity; try congruence.
    apply IH. congruence.
Qed.

Lemma slot_exists l outcomes (i : nat) (o : Res A) :
  Forall2 SlotOk l outcomes -> nth_error outcomes i = Some o ->
  exists slot, nth_error l i = Some slot.
Proof.
  intros H. revert i. induction H as [|slot o' l os Hs H IH]; intros i Hi.
  - destruct i; discriminate.
  - destruct i as [|i]; simpl in *; [eauto | now apply IH].
Qed.

Lemma slot_value l outcomes (i : nat) (w : A) (o : Res A) :
  Forall2 SlotOk l outcomes -> nth_error l i = Some (Some w) ->
  nth_error outcomes i = Some o -> o = Ok w.
Proof.
  intros H. revert i. induction H as [|slot o' l os Hs H IH]; intros i Hl Ho.
  - destruct i; discriminate.
  - destruct i as [|i]; simpl in *.
    + injection Hl as ->. injection Ho as ->. exact Hs.
    + now apply (IH i).
Qed.

Lemma countNone_zero l (i : nat) :
  countNone l = 0%nat -> nth_error l i <> Some None.
Proof.
  revert i. induction l as [|slot l IH]; intros i H.
  - destruct i; discriminate.
  - destruct slot; simpl in H; [|discriminate].
    destruct i as [|i]; simpl; [discriminate | now apply IH].
Qed.

Lemma countNone_pos l :
  (0 < countNone l)%nat -> exists i, nth_error l i = Some None.
Proof.
  induction l as [|slot l IH]; simpl; intros H.
  - lia.
  - destruct slot.
    + destruct (IH H) as [i Hi]. now exists (S i).
    + now exists 0%nat.
Qed.

Lemma all_written l outcomes :
  Forall2 SlotOk l outcomes -> countNone l = 0%nat ->
  exists vals, outcomes = List.map Ok vals /\ l = List.map Some vals.
Proof.
  induction 1 as [|slot o l os Hs H IH]; intros Hc.
  - now exists [].
  - destruct slot as [v|]; simpl in Hc; [|discriminate].
    destruct (IH Hc) as [vals [-> ->]]. simpl in Hs. subst o.
    now exists (v :: vals).
Qed.

Lemma allInit_inv outcomes : AllInv outcomes [] (allInit outcomes).
Proof.
  assert (Hc : countNone (List.map (fun _ : Res A => @None A) outcomes)
               = List.length outcomes).
  { induction outcomes; simpl; congruence. }
  split; simpl.
  - clear Hc. induction outcomes as [|o os IH]; simpl; constructor;
      [exact I | exact IH].
  - now rewrite Hc.
  - intros i v [].
  - destruct outcomes; simpl.
    + split; reflexivity.
    + split; [lia | intros i e []].
Qed.

Lemma settle_inv outcomes (processed : list nat) (st : AllState A) (i : nat) :
  AllInv outcomes processed st ->
  AllInv outcomes (processed ++ [i]) (settle outcomes st i).
Proof.
  intros [Hslots Hcount Hdone Hcap]. unfold settle.
  destruct (nth_error outcomes i) as [[v|e]|] eqn:Eo.
  - (* fulfilled with v *)
    destruct (slot_exists _ _ _ _ Hslots Eo) as [slot Hslot].
    rewrite Hslot. destruct slot as [w|].
    + (* already written *)
      split; try assumption.
      * intros j u Hj Hu. apply in_app_or in Hj as [Hj | [<- | []]].
        -- now apply Hdone.
        -- pose proof (slot_value _ _ _ _ _ Hslots Hslot Eo) as Hw.
           rewrite Hslot. congruence.
      * destruct (capability st); try assumption.
        destruct Hcap as [Hpos Hno]. split; [assumption|].
        intros j e Hj. apply in_app_or in Hj as [Hj | [<- | []]];
          [now apply Hno | congruence].
    + (* a fresh slot *)
      pose proof (setNth_count _ _ v Hslot) as Hc.
      split; cbn [values remainingElementsCount capability].
      * now apply setNth_slots.
      * rewrite Hcount, Hc. reflexivity.
      * intros j u Hj Hu. destruct (Nat.eq_dec i j) as [<- | Hij].
        -- rewrite (setNth_same _ _ _ _ Hslot). congruence.
        -- rewrite setNth_other by assumption. apply Hdone; [|assumption].
           apply in_app_or in Hj as [Hj | [Hj | []]]; [assumption | contradiction].
      * destruct (capability st) as [|vs|e].
        -- destruct Hcap as [Hpos Hno]. rewrite Hcount, Hc. cbn [Nat.pred].
           destruct (countNone (setNth i v (values st))) eqn:En; cbn [Nat.eqb].
           ++ split; [reflexivity | first [assumption | reflexivity]].
           ++ split; [lia|]. intros j e Hj.
              apply in_app_or in Hj as [Hj | [<- | []]];
                [now apply Hno | congruence].
        -- destruct Hcap as [_ Hz]. exfalso. now apply (countNone_zero _ i Hz).
        -- assumption.
  - (* rejected with e *)
    split; cbn [values remainingElementsCount capability]; try assumption.
    + intros j u Hj Hu. apply in_app_or in Hj as [Hj | [<- | []]];
        [now apply Hdone | congruence].
    + destruct (capability st); try assumption. now exists i.
  - (* no such promise *)
    split; try assumption.
    + intros j u Hj Hu. apply in_app_or in Hj as [Hj | [<- | []]];
        [now apply Hdone | congruence].
    + destruct (capability st); try assumption.
      destruct Hcap as [Hpos Hno]. split; [assumption|].
      intros j e Hj. apply in_app_or in Hj as [Hj | [<- | []]];
        [now apply Hno | congruence].
Qed.

Lemma fold_settle_inv outcomes (schedule : list nat) :
  AllInv outcomes schedule (fold_left (settle outcomes) schedule (allInit outcomes)).
Proof.
  induction schedule as [|i schedule IH] using rev_ind.
  - apply allInit_inv.
  - rewrite fold_left_app. cbn [fold_left]. now apply settle_inv.
Qed.

(** What [Promise.all] has produced after any settlement order. *)
Lemma promiseAll_outcome outcomes (schedule : list nat) :
  match promiseAll outcomes schedule with
  | Fulfilled results =>
      exists vals, outcomes = List.map Ok vals /\ results = List.map Some vals
  | Rejected e => exists i, nth_error outcomes i = Some (Throw e)
  | Pending => exists i, (i < List.length outcomes)%nat /\ ~ In i schedule
  end.
Proof.
  unfold promiseAll.
  destruct (fold_settle_inv outcomes schedule) as [Hslots Hcount Hdone Hcap].
  destruct (capability _) as [|vs|e].
  - destruct Hcap as [Hpos Hno].
    destruct (countNone_pos _ Hpos) as [i Hi]. exists i.
    assert (Hlen : (i < List.length outcomes)%nat).
    { rewrite <- (Forall2_length Hslots). apply nth_error_Some. congruence. }
    split; [assumption|]. intros Hin.
    destruct (nth_error outcomes i) as [[v|e]|] eqn:Eo.
    + rewrite (Hdone i v Hin Eo) in Hi. discriminate.
    + now apply (Hno i e Hin).
    + apply nth_error_None in Eo. lia.
  - destruct Hcap as [-> Hz]. now apply all_written.
  - assumption.
Qed.
End PromiseAll.

Lemma map_Ok_Forall2 {A B : Type} (f : A -> Res B) (l : list A) (vals : list B) :
  List.map f l = List.map Ok vals -> Forall2 (fun x v => f x = Ok v) l vals.
Proof.
  revert vals. induction l as [|x l IH]; intros [|v vals] H; try discriminate.
  - constructor.
  - simpl in H. injection H as Hx Hl. constructor; [assumption | now apply IH].
Qed.

(** C3.  Whatever the order in which the per-lead promises settle, the
    promise [scoreLeads] returns is in one of three states.  Fulfilled:
    with one scored lead per input lead, the i-th being the result of
    scoring the i-th input lead, and no slot left unwritten.  Rejected:
    with the one batch error, and then the input was not an array or
    scoring some lead of it failed.  Pending: only while some lead's
    promise has not settled. *)
Theorem scoreLeads_all_or_nothing
        (env : Env) (leads offer : JSValue) (schedule : list nat) :
  match scoreLeads env leads offer schedule with
  | Fulfilled results =>
      exists leadList scored,
        leads = VArr leadList /\
        results = List.map Some scored /\
        List.length scored = List.length leadList /\
        Forall2 (fun lead sl => scoreLead env lead offer = Ok sl) leadList scored
  | Rejected e =>
      e = AppError "Failed to score leads" 500 /\
      ((forall leadList, leads <> VArr leadList) \/
       exists leadList i lead,
         leads = VArr leadList /\ nth_error leadList i = Some lead /\
         scoreLead env lead offer = Throw (AppError "Failed to score lead" 500))
  | Pending =>
      exists leadList i,
        leads = VArr leadList /\ (i < List.length leadList)%nat /\ ~ In i schedule
  end.
Proof.
  unfold scoreLeads.
  destruct leads as [| |b|n| |s|leadList|props];
    try (cbn; split; [reflexivity | left; intros l; discriminate]).
  cbn [get bind callMap].
  pose proof (promiseAll_outcome
                (List.map (fun lead => scoreLead env lead offer) leadList) schedule) as H.
  destruct (promiseAll _ schedule) as [|results|e].
  - destruct H as [i [Hlen Hnot]]. rewrite List.length_map in Hlen.
    now exists leadList, i.
  - destruct H as [vals [Hmap ->]]. apply map_Ok_Forall2 in Hmap.
    exists leadList, vals. repeat split; try assumption.
    symmetry. exact (Forall2_length Hmap).
  - split; [reflexivity|]. right. destruct H as [i Hi].
    rewrite nth_error_map in Hi.
    destruct (nth_error leadList i) as [lead|] eqn:El; [|discriminate].
    simpl in Hi. injection Hi as Hi.
    exists leadList, i, lead. repeat split; try assumption.
    rewrite Hi. f_equal.
    unfold scoreLead in Hi.
    destruct (x <- calculateRuleScore lead offer ;; _) in Hi; simpl in Hi; congruence.
Qed.

(** Two leads whose promises settle in reverse order come back in input
    order; with one promise still pending there is no result yet; a lead
    that cannot be scored fails the batch. *)
Example scoreLeads_reverse_order :
  scoreLeads noProvider (VArr [sampleLead; VObj [("role", VStr "Developer")]])
             sampleOffer [1%nat; 0%nat]
  = match scoreLead noProvider sampleLead sampleOffer,
          scoreLead noProvider (VObj [("role", VStr "Developer")]) sampleOffer with
    | Ok first, Ok second => Fulfilled [Some first; Some second]
    | _, _ => Pending
    end
  /\ scoreLeads noProvider (VArr [sampleLead; VObj [("role", VStr "Developer")]])
                sampleOffer [1%nat] = Pending
  /\ scoreLeads noProvider (VArr [sampleLead; VNull]) sampleOffer [0%nat; 1%nat]
     = Rejected (AppError "Failed to score leads" 500).
Proof. split; [reflexivity | split; reflexivity]. Qed.

(** * More of the service: utilities, error handling, and how the layers
      compose *)

(** ** Upload validation *)

Import CsvParser LeadsController.

Lemma validateFields_everyM (lead : JSValue) (fields : list string) :
  validateFields lead fields = everyM (fieldPresent lead) fields.
Proof.
  induction fields as [|field rest IH]; cbn [validateFields everyM]; [reflexivity|].
  unfold fieldPresent at 1.
  destruct (get lead field) as [value|e]; cbn [bind]; [|reflexivity].
  destruct (truthy value); cbn [negb bind]; [|reflexivity].
  destruct (callTrim value) as [trimmed|e]; cbn [bind]; [|reflexivity].
  destruct (String.length trimmed); cbn [Nat.eqb Nat.ltb Nat.leb]; [reflexivity | exact IH].
Qed.

Lemma scoreDataCompleteness_validateLead (lead : JSValue) :
  scoreDataCompleteness lead =
  (valid <- validateLead lead ;; Ok (if valid : bool then 10 else 0)).
Proof.
  unfold scoreDataCompleteness, validateLead.
  now rewrite validateFields_everyM.
Qed.

(** X1.  Upload validation and the completeness rule agree on every value:
    a lead passes [validateLead] exactly when its completeness score is
    10, fails it exactly when the score is 0, and one throws exactly when
    the other does. *)
Theorem validateLead_agrees_with_completeness (lead : JSValue) :
  (validateLead lead = Ok true <-> scoreDataCompleteness lead = Ok 10) /\
  (validateLead lead = Ok false <-> scoreDataCompleteness lead = Ok 0) /\
  (forall e, validateLead lead = Throw e <-> scoreDataCompleteness lead = Throw e).
Proof.
  rewrite scoreDataCompleteness_validateLead.
  destruct (validateLead lead) as [[|]|e]; cbn [bind];
    repeat split; intros H; try reflexivity; try discriminate H; congruence.
Qed.

Lemma validateAll_shape (index : nat) (leadsData valid : list JSValue)
      (invalid : list (nat * JSValue)) :
  validateAll index leadsData = Ok (valid, invalid) ->
  valid = List.filter passes leadsData /\
  invalid = List.filter (fun entry => negb (passes (snd entry)))
                        (withLines index leadsData) /\
  Forall (fun lead => exists b, validateLead lead = Ok b) leadsData.
Proof.
  revert index valid invalid.
  induction leadsData as [|lead rest IH]; intros index valid invalid H.
  - injection H as <- <-. repeat split. constructor.
  - cbn [validateAll] in H.
    destruct (validateLead lead) as [ok|e] eqn:Ev; cbn [bind] in H; [|discriminate].
    destruct (validateAll (S index) rest) as [[v' i']|e] eqn:Er; cbn [bind] in H;
      [|discriminate].
    destruct (IH _ _ _ Er) as (Hv & Hi & Hall).
    assert (Hl : withLines index (lead :: rest)
                 = (index + 2, lead)%nat :: withLines (S index) rest) by reflexivity.
    rewrite Hl. cbn [List.filter snd].
    assert (Hp : passes lead = ok) by (unfold passes; rewrite Ev; now destruct ok).
    rewrite Hp.
    destruct ok; injection H as <- <-; cbn [negb].
    + split; [now rewrite Hv | split; [assumption | constructor; eauto]].
    + split; [assumption | split; [now rewrite Hi | constructor; eauto]].
Qed.

Lemma filter_length_split {A : Type} (f : A -> bool) (l : list A) :
  (List.length (List.filter f l)
   + List.length (List.filter (fun x => negb (f x)) l) = List.length l)%nat.
Proof.
  induction l as [|x l IH]; simpl; [reflexivity|].
  destruct (f x); simpl; lia.
Qed.

Lemma filter_combine_snd {A B : Type} (f : B -> bool) (keys : list A) (l : list B) :
  List.length keys = List.length l ->
  List.map snd (List.filter (fun entry => f (snd entry)) (combine keys l))
  = List.filter f l.
Proof.
  revert keys. induction l as [|x l IH]; intros [|k keys] H; try discriminate.
  - reflexivity.
  - simpl. destruct (f x); simpl; rewrite IH; auto.
Qed.

(** X2.  The validation loop of an upload splits the parsed leads exactly:
    the kept leads are those that pass [validateLead], in their order in
    the file, and the reported ones are all the others, in order, each
    with the number of its line in the file (the header being line 1).
    So every lead is kept or reported and none is both; each kept lead
    scores 10 on completeness and each reported one 0. *)
Theorem validateAll_partition (leadsData valid : list JSValue)
        (invalid : list (nat * JSValue)) :
  validateAll 0 leadsData = Ok (valid, invalid) ->
  valid = List.filter passes leadsData /\
  invalid = List.filter (fun entry => negb (passes (snd entry)))
                        (combine (seq 2 (List.length leadsData)) leadsData) /\
  List.map snd invalid = List.filter (fun lead => negb (passes lead)) leadsData /\
  (List.length valid + List.length invalid = List.length leadsData)%nat /\
  Forall (fun lead => scoreDataCompleteness lead = Ok 10) valid /\
  Forall (fun entry => scoreDataCompleteness (snd entry) = Ok 0) invalid.
Proof.
  intros H. destruct (validateAll_shape _ _ _ _ H) as (Hv & Hi & Hall).
  unfold withLines in Hi. cbn [Nat.add] in Hi.
  assert (Hsnd : List.map snd invalid
                 = List.filter (fun lead => negb (passes lead)) leadsData).
  { rewrite Hi. apply (filter_combine_snd (fun lead => negb (passes lead))).
    apply length_seq. }
  split; [assumption | split; [assumption | split; [assumption | split]]].
  - rewrite <- (filter_length_split passes leadsData), <- Hv, <- Hsnd.
    now rewrite List.length_map.
  - split.
    + rewrite Hv. apply Forall_forall. intros lead Hin.
      apply filter_In in Hin as [_ Hp]. unfold passes in Hp.
      rewrite scoreDataCompleteness_validateLead.
      destruct (validateLead lead) as [[|]|e]; try discriminate. reflexivity.
    + apply Forall_forall. intros entry Hin.
      assert (Hin' : In (snd entry) (List.map snd invalid)) by now apply in_map.
      rewrite Hsnd in Hin'. apply filter_In in Hin' as [Hl Hp].
      rewrite Forall_forall in Hall. destruct (Hall _ Hl) as [b Hb].
      unfold passes in Hp. rewrite Hb in Hp.
      rewrite scoreDataCompleteness_validateLead, Hb.
      destruct b; [discriminate | reflexivity].
Qed.

Lemma validateAll_partition_witness :
  exists valid invalid,
    validateAll 0 [sampleLead; VObj [("name", VStr "Bo"); ("role", VStr " ")]; sampleLead]
    = Ok (valid, invalid) /\
    valid = [sampleLead; sampleLead] /\
    invalid = [(3%nat, VObj [("name", VStr "Bo"); ("role", VStr " ")])].
Proof.
  eexists. eexists. split; [reflexivity|].
  destruct (validateAll_partition
              [sampleLead; VObj [("name", VStr "Bo"); ("role", VStr " ")]; sampleLead]
              _ _ eq_refl) as (Hv & Hi & _).
  split; [exact Hv | exact Hi].
Defined.

(** ** Reading the upload *)

Lemma filter_nil_all {A : Type} (f : A -> bool) (l : list A) :
  List.filter f l = [] -> forall x, In x l -> f x = false.
Proof.
  induction l as [|y l IH]; simpl; intros H x Hx; [destruct Hx|].
  destruct (f y) eqn:E; [discriminate|].
  destruct Hx as [<- | Hx]; auto.
Qed.

(** X3.  [parseCSV] never returns an empty list: what it returns is what
    the library parsed, has a first record, and that record has all six
    required columns.  With no record at all it reports all six columns as
    missing, so an empty file is answered by that message. *)
Theorem parseCSV_returns_complete_records (parsed : Res (list JSValue)) :
  (forall records,
      parseCSV parsed = Ok records ->
      parsed = Ok records /\
      exists first rest,
        records = first :: rest /\
        forall col, In col requiredColumns -> In col (objectKeys first)) /\
  (parsed = Ok [] ->
   parseCSV parsed =
   Throw (AppError
            "Missing required columns: name, role, company, industry, location, linkedin_bio"
            400)).
Proof.
  split; [|intros ->; reflexivity].
  intros records H. unfold parseCSV in H.
  destruct parsed as [rs|e]; cbn [bind] in H.
  - set (first := match rs with
                  | r :: _ => if truthy r then r else VObj []
                  | [] => VObj []
                  end) in H.
    destruct (List.filter _ requiredColumns) as [|m ms] eqn:Ef;
      cbn [List.length Nat.ltb Nat.leb catch] in H; [|discriminate].
    injection H as <-. split; [reflexivity|].
    pose proof (filter_nil_all _ _ Ef) as Hall.
    assert (Hkeys : forall col, In col requiredColumns -> In col (objectKeys first)).
    { intros col Hin. specialize (Hall col Hin). apply negb_false_iff in Hall.
      apply existsb_exists in Hall as [k [Hk Heq]].
      apply String.eqb_eq in Heq. now subst k. }
    destruct rs as [|r rest].
    + exfalso. exact (Hkeys "name" (or_introl eq_refl)).
    + exists r, rest. split; [reflexivity|].
      subst first. destruct (truthy r); [exact Hkeys|].
      exfalso. exact (Hkeys "name" (or_introl eq_refl)).
  - destruct e; discriminate.
Qed.

(** X4.  Whatever goes wrong in [parseCSV] reaches the caller as an
    [AppError] with status code 400, provided the library's own error is
    not an [AppError]. *)
Theorem parseCSV_fails_with_400 (parsed : Res (list JSValue)) (e : JSError) :
  (forall msg code, parsed <> Throw (AppError msg code)) ->
  parseCSV parsed = Throw e ->
  exists msg, e = AppError msg 400.
Proof.
  intros Hlib H. unfold parseCSV in H.
  destruct parsed as [rs|e']; cbn [bind] in H.
  - destruct (Nat.ltb 0 _); cbn [catch] in H; [|discriminate].
    injection H as <-. eauto.
  - destruct e' as [|m|m c]; cbn [catch] in H.
    + injection H as <-. eauto.
    + injection H as <-. eauto.
    + exfalso. now apply (Hlib m c).
Qed.

Lemma parseCSV_fails_with_400_witness :
  exists msg, AppError "Invalid CSV file format" 400 = AppError msg 400.
Proof.
  apply (parseCSV_fails_with_400 (Throw (Error "Invalid Record Length"))).
  - intros msg code H. discriminate H.
  - reflexivity.
Defined.

(** ** Export *)

Lemma append_length (a b : string) :
  String.length (a ++ b) = (String.length a + String.length b)%nat.
Proof. induction a; simpl; congruence. Qed.

Lemma append_cancel_r (a b q : string) : a ++ q = b ++ q -> a = b.
Proof.
  revert b. induction a as [|c a IH]; intros [|d b] H.
  - reflexivity.
  - apply (f_equal String.length) in H. simpl in H.
    rewrite append_length in H. lia.
  - apply (f_equal String.length) in H. simpl in H.
    rewrite append_length in H. lia.
  - simpl in H. injection H as -> H. f_equal. now apply IH.
Qed.

Lemma doubleQuotes_injective (s t : string) :
  doubleQuotes s = doubleQuotes t -> s = t.
Proof.
  revert t. induction s as [|c s IH]; intros [|d t] H; simpl in H.
  - reflexivity.
  - destruct (Ascii.eqb d dquoteChar); discriminate.
  - destruct (Ascii.eqb c dquoteChar); discriminate.
  - destruct (Ascii.eqb c dquoteChar) eqn:Ec, (Ascii.eqb d dquoteChar) eqn:Ed.
    + injection H as -> _ H. f_equal. now apply IH.
    + injection H as -> H. congruence.
    + injection H as -> H. congruence.
    + injection H as -> H. f_equal. now apply IH.
Qed.

Lemma cellText_injective (s t : string) : cellText s = cellText t -> s = t.
Proof.
  unfold cellText.
  destruct (includes s "," || includes s dquote)%bool eqn:Es,
           (includes t "," || includes t dquote)%bool eqn:Et; intros H.
  - simpl in H. injection H as H.
    apply append_cancel_r in H. now apply doubleQuotes_injective.
  - exfalso. apply orb_false_iff in Et as [_ Et]. subst t.
    vm_compute in Et. discriminate Et.
  - exfalso. apply orb_false_iff in Es as [_ Es]. subst s.
    vm_compute in Es. discriminate Es.
  - assumption.
Qed.

Lemma cell_string (lead : JSValue) (column s : string) :
  get lead column = Ok (VStr s) -> cell lead column = Ok (VStr (cellText s)).
Proof.
  intros H. unfold cell, cellText. rewrite H. cbn [bind].
  destruct s as [|c s]; [reflexivity|].
  cbn [truthy String.eqb negb].
  destruct (includes (String c s) "," || includes (String c s) dquote)%bool;
    reflexivity.
Qed.

(** X5.  Quoting in an export loses nothing: two leads whose values in a
    column are different strings get different cells, so the value can be
    told from the cell. *)
Theorem cell_injective (lead1 lead2 : JSValue) (column s1 s2 : string) :
  get lead1 column = Ok (VStr s1) ->
  get lead2 column = Ok (VStr s2) ->
  cell lead1 column = cell lead2 column ->
  s1 = s2.
Proof.
  intros H1 H2 H.
  rewrite (cell_string _ _ _ H1), (cell_string _ _ _ H2) in H.
  injection H as H. now apply cellText_injective.
Qed.

Lemma cell_injective_witness :
  "Growth, EMEA" = "Growth, EMEA".
Proof.
  apply (cell_injective
           (VObj [("role", VStr "Growth, EMEA")])
           (VObj [("name", VStr "Bo"); ("role", VStr "Growth, EMEA")]) "role");
    reflexivity.
Defined.

(** Induction on values that reaches the elements of arrays. *)
Lemma JSValue_elements_ind (P : JSValue -> Prop) :
  P VUndefined -> P VNull -> (forall b, P (VBool b)) -> (forall n, P (VNum n)) ->
  P VNaN -> (forall s, P (VStr s)) ->
  (forall l, Forall P l -> P (VArr l)) ->
  (forall props, P (VObj props)) ->
  forall v, P v.
Proof.
  intros Hu Hn Hb Hz Hnan Hs Ha Ho.
  fix IH 1.
  intros [ | | b | n | | s | l | props];
    [exact Hu | exact Hn | apply Hb | apply Hz | exact Hnan | apply Hs | | apply Ho].
  apply Ha. induction l as [|x rest IHl]; constructor; [apply IH | exact IHl].
Qed.

Lemma toString_array (l : list JSValue) :
  toString (VArr l) = (parts <- elementStrings l ;; Ok (joinStrings "," parts)).
Proof.
  cbn [toString]. f_equal.
Qed.

Lemma elementStrings_outcome (l : list JSValue) :
  Forall (fun v => (exists s, toString v = Ok s) \/ toString v = Throw TypeError) l ->
  (exists parts, elementStrings l = Ok parts) \/ elementStrings l = Throw TypeError.
Proof.
  induction 1 as [|x rest Hx _ IH]; cbn [elementStrings]; [left; eauto|].
  assert (Hp : (exists s, (if nullish x then Ok "" else toString x) = Ok s) \/
               (if nullish x then Ok "" else toString x) = Throw TypeError)
    by (destruct (nullish x); [left; eauto | exact Hx]).
  destruct Hp as [[s ->] | ->]; cbn [bind]; [|now right].
  destruct IH as [[parts ->] | ->]; cbn [bind]; [left; eauto | now right].
Qed.

Lemma toString_outcome (v : JSValue) :
  (exists s, toString v = Ok s) \/ toString v = Throw TypeError.
Proof.
  induction v as [ | | [|] | n | | s | l IH | props] using JSValue_elements_ind;
    try (left; cbn [toString]; eauto; fail).
  - rewrite toString_array.
    destruct (elementStrings_outcome l IH) as [[parts ->] | ->]; cbn [bind];
      [left; eauto | now right].
  - cbn [toString]. destruct (hasOwn "toString" props); [now right | left; eauto].
Qed.

Lemma toString_primitive (v : JSValue) :
  primitive v = true -> exists s, toString v = Ok s.
Proof.
  destruct v as [ | | [|] | n | | s | l | props]; try discriminate;
    intros _; cbn [toString]; eauto.
Qed.

Lemma elementStrings_primitive (l : list JSValue) :
  forallb primitive l = true -> exists parts, elementStrings l = Ok parts.
Proof.
  induction l as [|x rest IH]; cbn [forallb elementStrings]; [eauto|].
  intros H. apply andb_true_iff in H as [Hx Hrest].
  destruct (IH Hrest) as [parts ->].
  destruct (toString_primitive x Hx) as [s Hs].
  destruct (nullish x); [|rewrite Hs]; cbn [bind]; eauto.
Qed.

Lemma callJoin_outcome (v : JSValue) (sep : string) :
  (exists s, callJoin v sep = Ok s) \/ callJoin v sep = Throw TypeError.
Proof.
  destruct v as [ | | b | n | | s | l | props]; try (now right).
  cbn [callJoin].
  destruct (elementStrings_outcome l) as [[parts ->] | ->]; cbn [bind];
    [| left; eauto | now right].
  apply Forall_forall. intros x _. apply toString_outcome.
Qed.

Lemma callJoin_returns_array (v : JSValue) (sep s : string) :
  callJoin v sep = Ok s -> exists l, v = VArr l.
Proof.
  destruct v as [ | | b | n | | t | l | props]; try discriminate. eauto.
Qed.

Lemma callJoin_primitive (l : list JSValue) (sep : string) :
  forallb primitive l = true -> exists s, callJoin (VArr l) sep = Ok s.
Proof.
  intros H. cbn [callJoin].
  destruct (elementStrings_primitive l H) as [parts ->]. cbn [bind]. eauto.
Qed.

Lemma cell_returns (lead : JSValue) (column : string) :
  nullish lead = false -> exists v, cell lead column = Ok v.
Proof.
  intros Hn. unfold cell.
  assert (Hg : exists v, get lead column = Ok v)
    by (destruct lead; try discriminate; simpl; eauto).
  destruct Hg as [v ->]. cbn [bind].
  destruct (if truthy v then v else VStr "") as [| | | | |s| |]; eauto.
  destruct (includes s "," || includes s dquote)%bool; eauto.
Qed.

Lemma cell_primitive (lead : JSValue) (column : string) :
  primitiveField lead column = true ->
  exists v, cell lead column = Ok v /\ primitive v = true.
Proof.
  unfold primitiveField, cell.
  destruct (get lead column) as [x|e]; [|discriminate]. intros Hp. cbn [bind].
  assert (Hv : primitive (if truthy x then x else VStr "") = true)
    by (destruct (truthy x); [assumption | reflexivity]).
  destruct (if truthy x then x else VStr "") as [| | | | |s| |]; eauto.
  destruct (includes s "," || includes s dquote)%bool; eauto.
Qed.

Lemma cell_throws (lead : JSValue) (column : string) :
  nullish lead = true -> cell lead column = Throw TypeError.
Proof. destruct lead; try discriminate; reflexivity. Qed.

Lemma cells_return (lead : JSValue) (cols : list string) :
  nullish lead = false -> exists cells, mapM (cell lead) cols = Ok cells.
Proof.
  intros Hn. induction cols as [|c cols [cells IH]]; simpl; [eauto|].
  destruct (cell_returns lead c Hn) as [v ->]. rewrite IH. simpl. eauto.
Qed.

Lemma cells_primitive (lead : JSValue) (cols : list string) :
  forallb (primitiveField lead) cols = true ->
  exists cells, mapM (cell lead) cols = Ok cells /\ forallb primitive cells = true.
Proof.
  induction cols as [|c cols IH]; cbn [forallb mapM]; [eauto|].
  intros H. apply andb_true_iff in H as [Hc Hcols].
  destruct (cell_primitive lead c Hc) as (v & -> & Hv).
  destruct (IH Hcols) as (cells & -> & Hcells). cbn [bind].
  eexists. split; [reflexivity|]. cbn [forallb]. now rewrite Hv, Hcells.
Qed.

Lemma row_outcome (lead : JSValue) :
  (exportable lead = true -> exists r, row lead = Ok r) /\
  (nullish lead = true -> row lead = Throw TypeError) /\
  ((exists r, row lead = Ok r) \/ row lead = Throw TypeError).
Proof.
  unfold row. split; [|split].
  - intros H. apply andb_true_iff in H as [_ H].
    destruct (cells_primitive lead columns H) as (cells & -> & Hcells).
    cbn [bind]. apply callJoin_primitive, Hcells.
  - intros Hn. destruct lead; try discriminate; reflexivity.
  - destruct (nullish lead) eqn:Hn.
    + right. destruct lead; try discriminate; reflexivity.
    + destruct (cells_return lead columns Hn) as [cells ->]. cbn [bind].
      apply callJoin_outcome.
Qed.

Lemma rows_outcome (leads : list JSValue) :
  (forallb exportable leads = true ->
   exists rows, mapM row leads = Ok rows /\
                List.length rows = List.length leads) /\
  (existsb nullish leads = true -> mapM row leads = Throw TypeError) /\
  ((exists rows, mapM row leads = Ok rows /\
                 List.length rows = List.length leads) \/
   mapM row leads = Throw TypeError).
Proof.
  induction leads as [|lead rest (IHok & IHbad & IHany)]; cbn [forallb existsb mapM].
  - split; [intros _; now exists [] | split; [discriminate | left; now exists []]].
  - destruct (row_outcome lead) as (Hr & Ht & Hany). split; [|split].
    + intros H. apply andb_true_iff in H as [Hl Hrest].
      destruct (Hr Hl) as [r ->]. destruct (IHok Hrest) as (rows & -> & Hlen).
      cbn [bind]. eexists. split; [reflexivity|]. simpl. now rewrite Hlen.
    + intros H. apply orb_true_iff in H as [Hl | Hrest].
      * now rewrite (Ht Hl).
      * destruct Hany as [[r ->] | ->]; [|reflexivity].
        cbn [bind]. now rewrite (IHbad Hrest).
    + destruct Hany as [[r ->] | ->]; [|now right]. cbn [bind].
      destruct IHany as [(rows & -> & Hlen) | ->]; [|now right].
      left. cbn [bind]. eexists. split; [reflexivity|]. simpl. now rewrite Hlen.
Qed.

Lemma formatToCSV_rows (lead : JSValue) (rest : list JSValue) :
  formatToCSV (VArr (lead :: rest))
  = (rows <- mapM row (lead :: rest) ;;
     Ok (joinStrings "
" (csvHeader :: rows))).
Proof. reflexivity. Qed.

(** X6.  An export of an array of leads either returns or throws a
    TypeError, nothing else.  It returns when every lead is an object (or
    any value other than null and undefined) whose exported columns hold
    primitive values, as the leads of an upload and of a scoring run do;
    it throws the TypeError when some lead is null or undefined.  What it
    returns is empty for an empty array, and otherwise the header line
    followed by one line-feed separated row per lead. *)
Theorem formatToCSV_outcome (leads : list JSValue) :
  (forallb exportable leads = true ->
   exists rows,
     List.length rows = List.length leads /\
     formatToCSV (VArr leads) =
     Ok (match leads with
         | [] => ""
         | _ => joinStrings "
" (csvHeader :: rows)
         end)) /\
  (existsb nullish leads = true ->
   formatToCSV (VArr leads) = Throw TypeError) /\
  ((exists rows,
      List.length rows = List.length leads /\
      formatToCSV (VArr leads) =
      Ok (match leads with
          | [] => ""
          | _ => joinStrings "
" (csvHeader :: rows)
          end)) \/
   formatToCSV (VArr leads) = Throw TypeError).
Proof.
  destruct (rows_outcome leads) as (Hok & Hbad & Hany).
  destruct leads as [|lead rest].
  - split; [intros _; now exists [] | split; [discriminate | left; now exists []]].
  - rewrite formatToCSV_rows. split; [|split].
    + intros H. destruct (Hok H) as (rows & -> & Hlen). now exists rows.
    + intros H. now rewrite (Hbad H).
    + destruct Hany as [(rows & -> & Hlen) | ->]; [left; now exists rows | now right].
Qed.

Lemma formatToCSV_outcome_witness :
  (exists rows,
     List.length rows = 2%nat /\
     formatToCSV (VArr [sampleLead; VObj [("name", VStr "Bo, Jr"); ("score", VNum 70)]])
     = Ok (joinStrings "
" (csvHeader :: rows))) /\
  formatToCSV (VArr [sampleLead; VNull]) = Throw TypeError.
Proof.
  split.
  - exact (proj1 (formatToCSV_outcome
                    [sampleLead; VObj [("name", VStr "Bo, Jr"); ("score", VNum 70)]])
                 eq_refl).
  - exact (proj1 (proj2 (formatToCSV_outcome [sampleLead; VNull])) eq_refl).
Defined.

(** ** The upload filter *)

Import FileUpload.



Lemma toLowerCase_length (s : string) :
  String.length (toLowerCase s) = String.length s.
Proof. induction s; simpl; congruence. Qed.










(** ** How errors are answered *)

Import ErrorHandler.

Lemma status_of_range (lo : nat) (expected : string) (code : Z) :
  forallb (fun n => String.eqb (appErrorStatus (Z.of_nat n)) expected) (seq lo 100) = true ->
  Z.of_nat lo <= code <= Z.of_nat lo + 99 ->
  appErrorStatus code = expected.
Proof.
  intros Hall Hcode. rewrite forallb_forall in Hall.
  specialize (Hall (Z.to_nat code)).
  rewrite Z2Nat.id in Hall by lia.
  apply String.eqb_eq, Hall, in_seq. lia.
Qed.

Lemma appErrorStatus_4xx (code : Z) : 400 <= code <= 499 -> appErrorStatus code = "fail".
Proof. intros H. apply (status_of_range 400); [vm_compute; reflexivity | lia]. Qed.

Lemma appErrorStatus_5xx (code : Z) : 500 <= code <= 599 -> appErrorStatus code = "error".
Proof. intros H. apply (status_of_range 500); [vm_compute; reflexivity | lia]. Qed.

Lemma lookup_setProp_other (k k' : string) (v : JSValue)
      (props : list (string * JSValue)) :
  k <> k' -> lookup k (setProp k' v props) = lookup k props.
Proof.
  intros Hk. induction props as [|[k0 v0] rest IH]; cbn [setProp lookup].
  - destruct (String.eqb_spec k k'); [contradiction | reflexivity].
  - destruct (String.eqb_spec k' k0) as [<- | Hk0]; cbn [lookup].
    + destruct (String.eqb_spec k k'); [contradiction | reflexivity].
    + destruct (String.eqb_spec k k0); [reflexivity | exact IH].
Qed.

(** The status code and the class of an answer, by what the error
    carries. *)
Lemma errorHandler_status (development : bool) (err : ErrorObject) :
  httpStatus (errorHandler development err)
  = (if truthy (lookup "statusCode" (props err))
     then lookup "statusCode" (props err) else VNum 500) /\
  lookup "status" (body (errorHandler development err))
  = (if truthy (lookup "status" (props err))
     then lookup "status" (props err) else VStr "error").
Proof.
  unfold errorHandler.
  rewrite (lookup_setProp_other "status" "statusCode") by discriminate.
  destruct development; split; reflexivity.
Qed.

(** X8.  The answer to an error carries the error's own status code and
    class when it is an [AppError]: [fail] for every code from 400 to 499,
    [error] for every code from 500 to 599.  For any error object, an own
    status code and class that are truthy are answered as they are (so the
    400 of a request body that does not parse stays a 400), and an error
    that carries neither, as a built-in error does, is answered with 500
    and [error].  This holds in development and in production mode
    alike. *)
Theorem errorHandler_status_class (development : bool) (trace : JSValue) :
  (forall msg code,
      400 <= code <= 499 ->
      let r := errorHandler development (newAppError msg code trace) in
      httpStatus r = VNum code /\ lookup "status" (body r) = VStr "fail") /\
  (forall msg code,
      500 <= code <= 599 ->
      let r := errorHandler development (newAppError msg code trace) in
      httpStatus r = VNum code /\ lookup "status" (body r) = VStr "error") /\
  (forall err,
      let r := errorHandler development err in
      (truthy (lookup "statusCode" (props err)) = true ->
       httpStatus r = lookup "statusCode" (props err)) /\
      (truthy (lookup "statusCode" (props err)) = false ->
       httpStatus r = VNum 500) /\
      (truthy (lookup "status" (props err)) = true ->
       lookup "status" (body r) = lookup "status" (props err)) /\
      (truthy (lookup "status" (props err)) = false ->
       lookup "status" (body r) = VStr "error")).
Proof.
  split; [|split].
  - intros msg code H r. subst r.
    destruct (errorHandler_status development (newAppError msg code trace)) as [-> ->].
    cbn [newAppError props lookup String.eqb Ascii.eqb Bool.eqb truthy].
    rewrite (appErrorStatus_4xx code H).
    replace (negb (code =? 0)) with true
      by (symmetry; apply negb_true_iff, Z.eqb_neq; lia).
    split; reflexivity.
  - intros msg code H r. subst r.
    destruct (errorHandler_status development (newAppError msg code trace)) as [-> ->].
    cbn [newAppError props lookup String.eqb Ascii.eqb Bool.eqb truthy].
    rewrite (appErrorStatus_5xx code H).
    replace (negb (code =? 0)) with true
      by (symmetry; apply negb_true_iff, Z.eqb_neq; lia).
    split; reflexivity.
  - intros err r. subst r.
    destruct (errorHandler_status development err) as [-> ->].
    repeat split; intros ->; reflexivity.
Qed.

(** The error the body parser hands over for a body that is not JSON
    carries the status 400 twice, as [statusCode] and as [status]; the
    production answer keeps both. *)
Example bodyParser_error_response (trace body : JSValue) :
  errorHandler false
    {| message := "Unexpected token } in JSON at position 12";
       stack := trace;
       props := [ ("expose", VBool true); ("statusCode", VNum 400);
                  ("status", VNum 400); ("body", body);
                  ("type", VStr "entity.parse.failed") ] |}
  = {| httpStatus := VNum 400;
       body := [ ("status", VNum 400);
                 ("message", VStr "Unexpected token } in JSON at position 12") ] |}.
Proof. reflexivity. Qed.

Lemma scoreLeads_rejection (env : Env) (leads offer : JSValue)
      (schedule : list nat) (e : JSError) :
  scoreLeads env leads offer schedule = Rejected e ->
  e = AppError "Failed to score leads" 500.
Proof.
  unfold scoreLeads.
  destruct (len <- get leads "length" ;; _) as [promises|err].
  - destruct (promiseAll promises schedule); intros H; congruence.
  - intros H. congruence.
Qed.

(** X9.  When a batch fails, the production answer of the error handler to
    the error [scoreLeads] rejects with is always the same: status 500,
    class [error], message [Failed to score leads].  Which lead failed and
    why is not in it. *)
Theorem batch_failure_response (env : Env) (leads offer : JSValue)
        (schedule : list nat) (e : JSError) (text : string) (trace : JSValue) :
  scoreLeads env leads offer schedule = Rejected e ->
  errorHandler false (errorObject text trace e) =
  {| httpStatus := VNum 500;
     body := [ ("status", VStr "error");
               ("message", VStr "Failed to score leads") ] |}.
Proof.
  intros H. apply scoreLeads_rejection in H. subst e. reflexivity.
Qed.

Lemma batch_failure_response_witness :
  errorHandler false
    (errorObject "Cannot read properties of null" VUndefined
                 (AppError "Failed to score leads" 500)) =
  {| httpStatus := VNum 500;
     body := [ ("status", VStr "error");
               ("message", VStr "Failed to score leads") ] |}.
Proof.
  apply (batch_failure_response noProvider (VArr [VNull]) sampleOffer [0%nat]).
  reflexivity.
Defined.

(** A request for an unknown URL is answered, in production, with status
    404, class [fail] and a message that names the URL. *)
Example notFound_response (originalUrl : string) (trace : JSValue) :
  errorHandler false (notFoundHandler originalUrl trace) =
  {| httpStatus := VNum 404;
     body := [ ("status", VStr "fail");
               ("message",
                VStr ("Cannot find " ++ originalUrl ++ " on this server")) ] |}.
Proof. reflexivity. Qed.

(** ** Label and score *)

Lemma getFallbackScore_label (lead offer : JSValue) (r : IntentResult) :
  getFallbackScore lead offer = Ok r ->
  LabelAndScore (AIScoring.intent r) (AIScoring.score r).
Proof.
  unfold getFallbackScore, LabelAndScore.
  destruct (someM _ strongRoleKeywords) as [b1|e]; cbn [bind]; [|discriminate].
  destruct (get offer "ideal_use_cases") as [u|e]; cbn [bind]; [|discriminate].
  destruct (callSome u _) as [b2|e]; cbn [bind]; [|discriminate].
  destruct b1, b2; simpl; intros H; injection H as <-; simpl; auto.
Qed.

Lemma parsed_label (response : string) (p : ParsedResponse) :
  parseAIResponse response = Ok p ->
  LabelAndScore (parsedIntent p) (mapIntentToScore (parsedIntent p)).
Proof.
  intros H. apply parsedIntent_values in H. unfold LabelAndScore.
  destruct H as [-> | [-> | ->]]; cbv; auto.
Qed.

Lemma calculateOpenAIScore_label (client : OpenAIClient) (lead offer : JSValue)
      (r : IntentResult) :
  calculateOpenAIScore client lead offer = Ok r ->
  LabelAndScore (AIScoring.intent r) (AIScoring.score r).
Proof.
  unfold calculateOpenAIScore.
  destruct (constructPrompt lead offer) as [prompt|e]; cbn [bind catch]; [|discriminate].
  destruct (client systemPrompt prompt) as [content|e]; cbn [bind catch]; [|discriminate].
  destruct (callTrim content) as [aiResponse|e]; cbn [bind catch]; [|discriminate].
  destruct (parseAIResponse aiResponse) as [parsed|e] eqn:E; cbn [bind catch];
    [|discriminate].
  intros H. injection H as <-. cbn [AIScoring.score AIScoring.intent].
  eapply parsed_label; eassumption.
Qed.

Lemma calculateGeminiScore_label (client : GeminiClient) (lead offer : JSValue)
      (r : IntentResult) :
  calculateGeminiScore client lead offer = Ok r ->
  LabelAndScore (AIScoring.intent r) (AIScoring.score r).
Proof.
  unfold calculateGeminiScore.
  destruct (selectModel client modelNames None) as [model|]; cbn [bind catch];
    [|discriminate].
  destruct (constructPrompt lead offer) as [prompt|e]; cbn [bind catch]; [|discriminate].
  destruct (client model _) as [text|e]; cbn [bind catch]; [|discriminate].
  destruct (callTrim text) as [aiResponse|e]; cbn [bind catch]; [|discriminate].
  destruct (parseAIResponse aiResponse) as [parsed|e] eqn:E; cbn [bind catch];
    [|discriminate].
  intros H. injection H as <-. cbn [AIScoring.score AIScoring.intent].
  eapply parsed_label; eassumption.
Qed.

(** X11.  In every scored lead the intent label is High, Medium or Low and
    the intent score is the one the table gives that label (50, 30, 10),
    whichever provider or the fallback produced it; the rule breakdown has
    no part in the label. *)
Theorem scoreLead_label_matches_score (env : Env) (lead offer : JSValue)
        (sl : ScoredLead) :
  scoreLead env lead offer = Ok sl ->
  LabelAndScore (intent sl) (aiScore sl) /\
  exists aiResult, calculateAIScore env lead offer = Ok aiResult /\
                   intent sl = AIScoring.intent aiResult.
Proof.
  intros H. apply scoreLead_returns in H as (rr & ai & Hr & Ha & ->).
  cbn [intent aiScore]. split; [|now exists ai].
  destruct (calculateAIScore_cases env lead offer)
    as [Hf | [(c & r' & _ & Hc & Hr') | (c & r' & _ & Hc & Hr')]].
  - rewrite Hf in Ha. eapply getFallbackScore_label; eassumption.
  - rewrite Ha in Hr'. injection Hr' as <-. eapply calculateOpenAIScore_label; eassumption.
  - rewrite Ha in Hr'. injection Hr' as <-. eapply calculateGeminiScore_label; eassumption.
Qed.

Lemma scoreLead_label_matches_score_witness :
  exists sl, scoreLead withProvider sampleLead sampleOffer = Ok sl /\
             LabelAndScore (intent sl) (aiScore sl).
Proof.
  pose proof (scoreLead_label_matches_score withProvider sampleLead sampleOffer) as H.
  destruct (scoreLead withProvider sampleLead sampleOffer) as [sl|e] eqn:E;
    [|vm_compute in E; discriminate E].
  exists sl. split; [reflexivity | exact (proj1 (H sl eq_refl))].
Defined.

(** X12.  Every final score is a multiple of ten between 10 and 100. *)
Theorem scoreLead_score_multiple_of_ten (env : Env) (lead offer : JSValue)
        (sl : ScoredLead) :
  scoreLead env lead offer = Ok sl ->
  exists k, score sl = Points (10 * k) /\ 1 <= k <= 10.
Proof.
  intros H. apply scoreLead_returns in H as (rr & ai & Hr & Ha & ->).
  apply calculateAIScore_score in Ha. apply calculateRuleScore_range in Hr.
  cbn [score]. unfold IntentScore in Ha.
  destruct Hr as (H1 & H2 & H3 & ->).
  destruct Ha as [-> | [-> | ->]]; cbn [plus];
    destruct H1 as [-> | [-> | ->]]; destruct H2 as [-> | [-> | ->]];
      destruct H3 as [-> | ->];
      match goal with
      | |- exists k, Points ?n = _ /\ _ =>
          exists (n / 10); split; [reflexivity | vm_compute; split; discriminate]
      end.
Qed.

Lemma scoreLead_score_multiple_of_ten_witness :
  exists sl k, scoreLead noProvider sampleLead sampleOffer = Ok sl /\
               score sl = Points (10 * k) /\ 1 <= k <= 10.
Proof.
  pose proof (scoreLead_score_multiple_of_ten noProvider sampleLead sampleOffer) as H.
  destruct (scoreLead noProvider sampleLead sampleOffer) as [sl|e] eqn:E;
    [|vm_compute in E; discriminate E].
  destruct (H sl eq_refl) as [k Hk]. now exists sl, k.
Defined.

(** ** The industry pass *)

(** X13.  When the lead's industry or the first ideal use case contains an
    adjacency keyword, the industry score of a non-empty industry is 10 or
    20, never 0, whatever the other use cases are. *)
Theorem scoreIndustryMatch_adjacent_first (industry useCase : string)
        (later : list JSValue) :
  industry <> "" ->
  ContainsAny adjacentIndustries (toLowerCase industry) \/
  ContainsAny adjacentIndustries (toLowerCase useCase) ->
  scoreIndustryMatch (VStr industry) (VArr (VStr useCase :: later)) = Ok 10 \/
  scoreIndustryMatch (VStr industry) (VArr (VStr useCase :: later)) = Ok 20.
Proof.
  intros Hi Hadj.
  rewrite scoreIndustryMatch_array by (assumption || discriminate).
  assert (Ha : Adjacent industry useCase).
  { destruct Hadj as [[adj [Hin H]] | [adj [Hin H]]]; exists adj; auto. }
  destruct (industryLoop_step industry useCase later) as (H20 & H10 & _).
  pose proof (either_test industry useCase) as He.
  destruct (includes (toLowerCase useCase) (toLowerCase industry)
            || includes (toLowerCase industry) (toLowerCase useCase))%bool.
  - right. apply H20. now apply He.
  - left. apply H10; [|assumption]. intros H. apply He in H. discriminate.
Qed.

Lemma scoreIndustryMatch_adjacent_first_witness :
  scoreIndustryMatch (VStr "Healthcare")
    (VArr [VStr "B2B SaaS mid-market"; VStr "Sales teams"]) = Ok 10 \/
  scoreIndustryMatch (VStr "Healthcare")
    (VArr [VStr "B2B SaaS mid-market"; VStr "Sales teams"]) = Ok 20.
Proof.
  apply scoreIndustryMatch_adjacent_first.
  - discriminate.
  - right. exists "saas". split; [simpl; tauto | apply includes_spec; reflexivity].
Defined.

(** ** Providers *)

Lemma last_cons_default {A : Type} (x : A) (l : list A) (d d' : A) :
  last (x :: l) d = last (x :: l) d'.
Proof.
  revert x. induction l as [|y l IH]; intros x; [reflexivity|].
  change (last (y :: l) d = last (y :: l) d'). apply IH.
Qed.

Lemma selectModel_outcome (client : GeminiClient) (names : list string)
      (current : option string) :
  (exists before model after,
      names = (before ++ model :: after)%list /\
      AllProbesFail client before /\
      (exists v, client model "Hello" = Ok v) /\
      selectModel client names current = Some model) \/
  (AllProbesFail client names /\
   selectModel client names current = last (List.map Some names) current).
Proof.
  revert current. induction names as [|name rest IH]; intros current.
  - right. split; [intros n []|reflexivity].
  - cbn [selectModel]. destruct (client name "Hello") as [v|e] eqn:E.
    + left. exists [], name, rest. repeat split; [intros n [] | now exists v].
    + destruct (IH (Some name)) as [(before & model & after & -> & Hb & Hv & Hs) | [Hall Hs]].
      * left. exists (name :: before), model, after. repeat split; try assumption.
        intros n [<- | Hn]; [now exists e | now apply Hb].
      * right. split.
        -- intros n [<- | Hn]; [now exists e | now apply Hall].
        -- rewrite Hs. cbn [List.map].
           destruct rest as [|r rest']; [reflexivity|].
           cbn [List.map].
           change (last (Some r :: List.map Some rest') (Some name)
                   = last (Some r :: List.map Some rest') current).
           apply last_cons_default.
Qed.

(** X14.  The probing loop of the Gemini path always ends with a model:
    the first of the four whose probe answered, all earlier probes having
    thrown, or, when all four probes throw, the last one tried.  (A probe
    is the [generateContent] call; [getGenerativeModel] only builds the
    model object and is taken to return.) *)
Theorem selectModel_always_selects (client : GeminiClient) :
  (exists before model after,
      modelNames = (before ++ model :: after)%list /\
      AllProbesFail client before /\
      (exists v, client model "Hello" = Ok v) /\
      selectModel client modelNames None = Some model) \/
  (AllProbesFail client modelNames /\
   selectModel client modelNames None = Some "models/gemini-pro").
Proof.
  destruct (selectModel_outcome client modelNames None) as [H | [Hall Hs]].
  - now left.
  - right. split; [assumption | exact Hs].
Qed.

Lemma catch_fallback_self (lead offer : JSValue) :
  catch (getFallbackScore lead offer) (fun _ => getFallbackScore lead offer)
  = getFallbackScore lead offer.
Proof. destruct (getFallbackScore lead offer) eqn:E; simpl; congruence. Qed.

(** X15.  With both providers configured, [AI_PROVIDER] decides which one
    is asked, and the other is never consulted: set to gemini in any
    letter case the result is Gemini's reply or, when that call throws, the
    fallback's, whatever the OpenAI client would have answered; set to
    anything else, or unset, the same holds with the roles exchanged. *)
Theorem calculateAIScore_asks_one_provider
        (oc : OpenAIClient) (gc : GeminiClient) (provider : option string)
        (lead offer : JSValue) :
  let env := {| openai := Some oc; gemini := Some gc; AI_PROVIDER := provider |} in
  ((exists p, provider = Some p /\ toLowerCase p = "gemini") ->
   calculateAIScore env lead offer =
   catch (calculateGeminiScore gc lead offer) (fun _ => getFallbackScore lead offer)) /\
  ((forall p, provider = Some p -> toLowerCase p <> "gemini") ->
   calculateAIScore env lead offer =
   catch (calculateOpenAIScore oc lead offer) (fun _ => getFallbackScore lead offer)).
Proof.
  cbn zeta. unfold calculateAIScore. cbn [openai gemini AI_PROVIDER]. split.
  - intros [p [-> Hp]]. rewrite Hp. reflexivity.
  - intros Hn. destruct provider as [p|]; [|reflexivity].
    specialize (Hn p eq_refl).
    destruct (toLowerCase p =? "")%string; [reflexivity|].
    destruct (toLowerCase p =? "openai")%string; [reflexivity|].
    destruct (String.eqb_spec (toLowerCase p) "gemini"); [contradiction | reflexivity].
Qed.

(** ** The prompt *)

Lemma get_outcome (v : JSValue) (k : string) :
  (nullish v = false /\ exists x, get v k = Ok x) \/
  (nullish v = true /\ get v k = Throw TypeError).
Proof. destruct v; simpl; eauto. Qed.

Lemma get_returns (v x : JSValue) (k : string) : get v k = Ok x -> nullish v = false.
Proof. destruct v; try discriminate; reflexivity. Qed.

Lemma primitiveField_get (v : JSValue) (k : string) :
  primitiveField v k = true -> exists x, get v k = Ok x /\ primitive x = true.
Proof. unfold primitiveField. destruct (get v k); [eauto | discriminate]. Qed.

Lemma primitiveArrayField_get (v : JSValue) (k : string) :
  primitiveArrayField v k = true ->
  exists l, get v k = Ok (VArr l) /\ forallb primitive l = true.
Proof.
  unfold primitiveArrayField.
  destruct (get v k) as [[ | | | | | | l | ]|]; try discriminate. eauto.
Qed.

(** One step of the prompt: a property read, a conversion or a join either
    returns or throws a TypeError. *)
Ltac prompt_step :=
  lazymatch goal with
  | |- (exists _, bind (get ?v ?k) _ = _) \/ _ =>
      destruct (get_outcome v k) as [[_ [? ->]] | [_ ->]]
  | |- (exists _, bind (toString ?v) _ = _) \/ _ =>
      destruct (toString_outcome v) as [[? ->] | ->]
  | |- (exists _, bind (callJoin ?v ?sep) _ = _) \/ _ =>
      destruct (callJoin_outcome v sep) as [[? ->] | ->]
  end;
  cbn [bind]; [|now right].

Lemma constructPrompt_outcome (lead offer : JSValue) :
  (exists prompt, constructPrompt lead offer = Ok prompt) \/
  constructPrompt lead offer = Throw TypeError.
Proof.
  unfold constructPrompt. do 18 prompt_step. left. eauto.
Qed.

(** Peeling the first step off a prompt that was built. *)
Ltac prompt_built H :=
  lazymatch type of H with
  | bind ?m _ = Ok _ =>
      let E := fresh "E" in
      destruct m eqn:E; cbn [bind] in H; [|discriminate H]
  end.

Lemma constructPrompt_arrays (lead offer : JSValue) (prompt : string) :
  constructPrompt lead offer = Ok prompt ->
  nullish lead = false /\
  exists valueProps useCases,
    get offer "value_props" = Ok (VArr valueProps) /\
    get offer "ideal_use_cases" = Ok (VArr useCases).
Proof.
  unfold constructPrompt. intros H.
  prompt_built H. prompt_built H.
  prompt_built H. rename E into Hvp. prompt_built H. rename E into Hvj.
  prompt_built H. rename E into Huc. prompt_built H. rename E into Huj.
  prompt_built H. rename E into Hname.
  apply callJoin_returns_array in Hvj as [valueProps ->].
  apply callJoin_returns_array in Huj as [useCases ->].
  split; [exact (get_returns _ _ _ Hname) | eauto].
Qed.

Lemma constructPrompt_promptable (lead offer : JSValue) :
  promptable lead offer = true ->
  exists prompt, constructPrompt lead offer = Ok prompt.
Proof.
  unfold promptable. cbn [forallb]. intros H.
  repeat match goal with
         | F : (_ && _)%bool = true |- _ =>
             let F1 := fresh F in
             let F2 := fresh F in
             destruct (proj1 (andb_true_iff _ _) F) as [F1 F2]; clear F
         end.
  repeat match goal with
         | F : primitiveField _ _ = true |- _ =>
             apply primitiveField_get in F as (? & ? & ?)
         | F : primitiveArrayField _ _ = true |- _ =>
             apply primitiveArrayField_get in F as (? & ? & ?)
         end.
  unfold constructPrompt.
  repeat match goal with
         | E : get ?v ?k = Ok _ |- context [get ?v ?k] => rewrite E; cbn [bind]
         | P : primitive ?x = true |- context [toString ?x] =>
             let s := fresh "s" in
             let Hs := fresh "Hs" in
             destruct (toString_primitive x P) as [s Hs]; rewrite Hs; cbn [bind]
         | P : forallb primitive ?l = true |- context [callJoin (VArr ?l) ?sep] =>
             let s := fresh "s" in
             let Hs := fresh "Hs" in
             destruct (callJoin_primitive l sep P) as [s Hs]; rewrite Hs; cbn [bind]
         end.
  match goal with
  | |- context [toString (if truthy ?b then ?b else ?d)] =>
      assert (Hbio : primitive (if truthy b then b else d) = true)
        by (destruct (truthy b); [assumption | reflexivity]);
      destruct (toString_primitive _ Hbio) as [bio ->]; cbn [bind]
  end.
  eauto.
Qed.

(** X16.  A prompt is built only when the lead is not null or undefined
    and the offer's value props and ideal use cases are both arrays, and
    it is built whenever, besides, the values it prints are primitive:
    strings, numbers, booleans or missing.  When it is not built that is a
    TypeError, and then the OpenAI path throws it too, whatever the client
    is. *)
Theorem constructPrompt_needs_arrays (lead offer : JSValue) :
  ((exists prompt, constructPrompt lead offer = Ok prompt) ->
   nullish lead = false /\
   exists valueProps useCases,
     get offer "value_props" = Ok (VArr valueProps) /\
     get offer "ideal_use_cases" = Ok (VArr useCases)) /\
  (promptable lead offer = true ->
   exists prompt, constructPrompt lead offer = Ok prompt) /\
  ((forall prompt, constructPrompt lead offer <> Ok prompt) ->
   constructPrompt lead offer = Throw TypeError /\
   forall client, calculateOpenAIScore client lead offer = Throw TypeError).
Proof.
  split; [|split].
  - intros [prompt H]. exact (constructPrompt_arrays lead offer prompt H).
  - apply constructPrompt_promptable.
  - intros Hn.
    destruct (constructPrompt_outcome lead offer) as [[p Hp] | H];
      [now destruct (Hn p)|].
    split; [assumption|].
    intros client. unfold calculateOpenAIScore. rewrite H. reflexivity.
Qed.

Lemma constructPrompt_needs_arrays_witness :
  (exists prompt, constructPrompt sampleLead sampleOffer = Ok prompt) /\
  calculateOpenAIScore sampleClient sampleLead
    (VObj [("ideal_use_cases", stringArray ["B2B SaaS mid-market"])])
  = Throw TypeError.
Proof.
  split.
  - exact (proj1 (proj2 (constructPrompt_needs_arrays sampleLead sampleOffer)) eq_refl).
  - refine (proj2 (proj2 (proj2 (constructPrompt_needs_arrays sampleLead
              (VObj [("ideal_use_cases", stringArray ["B2B SaaS mid-market"])]))) _)
              sampleClient).
    intros prompt H. vm_compute in H. discriminate H.
Defined.

(** ** When scoring returns and when it cannot *)

Lemma getFallbackScore_returns (lead offer : JSValue) :
  WellFormedLead lead -> WellFormedOffer offer ->
  exists r, getFallbackScore lead offer = Ok r.
Proof.
  intros (rv & iv & role & industry & Hr & Fr & Hi & Fi) [useCases Hu].
  rewrite (getFallbackScore_flags lead offer rv iv role industry useCases)
    by assumption.
  eauto.
Qed.

Lemma calculateAIScore_returns (env : Env) (lead offer : JSValue) :
  WellFormedLead lead -> WellFormedOffer offer ->
  exists r, calculateAIScore env lead offer = Ok r.
Proof.
  intros Hl Ho. destruct (getFallbackScore_returns lead offer Hl Ho) as [r Hr].
  destruct (calculateAIScore_cases env lead offer)
    as [Hf | [(c & r' & _ & _ & H) | (c & r' & _ & _ & H)]]; eauto.
  rewrite Hf. eauto.
Qed.

Lemma scoreLead_well_formed (env : Env) (lead offer : JSValue) :
  WellFormedLead lead -> WellFormedOffer offer ->
  exists sl, scoreLead env lead offer = Ok sl.
Proof.
  intros Hl Ho. destruct (calculateAIScore_returns env lead offer Hl Ho) as [r Hr].
  eapply scoreLead_total; eassumption.
Qed.

(** X17.  For a lead whose role and industry are strings where present and
    an offer whose ideal use cases are an array of strings, scoring one
    lead always returns, whatever is configured and whatever the providers
    answer or throw. *)
Theorem scoreLead_returns_on_well_formed (env : Env) (lead offer : JSValue) :
  WellFormedLead lead -> WellFormedOffer offer ->
  exists sl, scoreLead env lead offer = Ok sl.
Proof. apply scoreLead_well_formed. Qed.

Lemma sampleLead_well_formed : WellFormedLead sampleLead.
Proof.
  exists (VStr "Head of Growth"), (VStr "B2B SaaS"),
         (Some "Head of Growth"), (Some "B2B SaaS").
  repeat split.
Qed.

Lemma sampleOffer_well_formed : WellFormedOffer sampleOffer.
Proof. now exists ["B2B SaaS mid-market"; "Sales teams"]. Qed.

Lemma scoreLead_returns_on_well_formed_witness :
  exists sl,
    scoreLead {| openai := Some (fun _ _ => Throw (Error "429 Too Many Requests"));
                 gemini := None; AI_PROVIDER := Some "OpenAI" |}
              sampleLead sampleOffer = Ok sl.
Proof.
  apply scoreLead_returns_on_well_formed.
  - exists (VStr "Head of Growth"), (VStr "B2B SaaS"),
           (Some "Head of Growth"), (Some "B2B SaaS").
    repeat split.
  - now exists ["B2B SaaS mid-market"; "Sales teams"].
Defined.

Lemma map_all_Ok {A B : Type} (f : A -> Res B) (l : list A) :
  (forall x, In x l -> exists y, f x = Ok y) ->
  exists ys, List.map f l = List.map Ok ys.
Proof.
  induction l as [|x l IH]; intros H.
  - now exists [].
  - destruct (H x (or_introl eq_refl)) as [y Hy].
    destruct IH as [ys Hys]; [intros z Hz; apply H; now right|].
    exists (y :: ys). simpl. now rewrite Hy, Hys.
Qed.

Lemma map_Ok_injective {B : Type} (a b : list B) :
  List.map (@Ok B) a = List.map Ok b -> a = b.
Proof.
  revert b. induction a as [|x a IH]; intros [|y b] H; try discriminate.
  - reflexivity.
  - simpl in H. injection H as -> H. f_equal. now apply IH.
Qed.

Lemma map_Ok_no_Throw {B : Type} (ys : list B) (i : nat) (e : JSError) :
  nth_error (List.map Ok ys) i <> Some (Throw e).
Proof.
  rewrite nth_error_map. destruct (nth_error ys i); discriminate.
Qed.

(** X18.  A batch of well-formed leads against a well-formed offer, once
    every lead's promise has settled, is fulfilled, in whatever order they
    settled, with exactly one scored lead per input lead; for an empty
    batch that is the empty list. *)
Theorem scoreLeads_fulfilled_on_well_formed
        (env : Env) (leadList : list JSValue) (offer : JSValue) (schedule : list nat) :
  (forall lead, In lead leadList -> WellFormedLead lead) ->
  WellFormedOffer offer ->
  (forall i, (i < List.length leadList)%nat -> In i schedule) ->
  exists scored,
    scoreLeads env (VArr leadList) offer schedule = Fulfilled (List.map Some scored) /\
    List.map (fun lead => scoreLead env lead offer) leadList = List.map Ok scored.
Proof.
  intros Hl Ho Hs.
  destruct (map_all_Ok (fun lead => scoreLead env lead offer) leadList) as [scored Hscored].
  { intros lead Hin. apply scoreLead_well_formed; auto. }
  exists scored. split; [|assumption].
  unfold scoreLeads. cbn [get bind callMap].
  pose proof (promiseAll_outcome
                (List.map (fun lead => scoreLead env lead offer) leadList) schedule) as H.
  destruct (promiseAll _ schedule) as [|results|e].
  - destruct H as [i [Hlen Hnot]]. rewrite List.length_map in Hlen.
    exfalso. apply Hnot. now apply Hs.
  - destruct H as [vals [Hmap ->]]. rewrite Hscored in Hmap.
    apply map_Ok_injective in Hmap. now subst vals.
  - destruct H as [i Hi]. rewrite Hscored in Hi.
    exfalso. exact (map_Ok_no_Throw _ _ _ Hi).
Qed.

Lemma scoreLeads_fulfilled_on_well_formed_witness :
  exists scored,
    scoreLeads withProvider (VArr [sampleLead; sampleLead]) sampleOffer [1%nat; 0%nat]
    = Fulfilled (List.map Some scored) /\
    List.length scored = 2%nat.
Proof.
  destruct (scoreLeads_fulfilled_on_well_formed
              withProvider [sampleLead; sampleLead] sampleOffer [1%nat; 0%nat])
    as [scored [Hf Hm]].
  - intros lead [<- | [<- | []]]; apply sampleLead_well_formed.
  - apply sampleOffer_well_formed.
  - intros i Hi. simpl in Hi. simpl.
    destruct i as [|[|i]]; [tauto | tauto | lia].
  - exists scored. split; [assumption|].
    apply (f_equal (@List.length _)) in Hm. rewrite !List.length_map in Hm.
    simpl in Hm. congruence.
Defined.

(** X19.  When the offer's ideal use cases are not an array, scoring fails
    for every lead and every configuration: the prompt cannot be built, the
    fallback throws as well, and the lead is reported as
    [Failed to score lead]; a batch of such leads, once all have settled,
    is rejected. *)
Theorem scoreLead_needs_use_case_array (env : Env) (lead offer : JSValue) :
  (forall useCases, get offer "ideal_use_cases" <> Ok (VArr useCases)) ->
  scoreLead env lead offer = Throw (AppError "Failed to score lead" 500) /\
  forall rest schedule,
    (forall i, (i < S (List.length rest))%nat -> In i schedule) ->
    scoreLeads env (VArr (lead :: rest)) offer schedule
    = Rejected (AppError "Failed to score leads" 500).
Proof.
  intros Hn.
  assert (Hfb : exists e, getFallbackScore lead offer = Throw e).
  { unfold getFallbackScore.
    destruct (someM _ strongRoleKeywords) as [b|e]; cbn [bind]; [|eauto].
    destruct (get offer "ideal_use_cases") as [u|e] eqn:Eu; cbn [bind]; [|eauto].
    destruct u; cbn [callSome bind]; eauto.
    exfalso. now apply (Hn elems). }
  assert (Hp : constructPrompt lead offer = Throw TypeError).
  { destruct (constructPrompt_outcome lead offer) as [[p H] | H]; [|assumption].
    exfalso.
    destruct (constructPrompt_arrays lead offer p H) as (_ & vp & uc & _ & Huc).
    now apply (Hn uc). }
  assert (Hai : exists e, calculateAIScore env lead offer = Throw e).
  { destruct Hfb as [e He].
    destruct (calculateAIScore_cases env lead offer)
      as [Hf | [(c & r & _ & Hc & _) | (c & r & _ & Hc & _)]].
    - rewrite Hf. eauto.
    - exfalso. unfold calculateOpenAIScore in Hc. rewrite Hp in Hc. discriminate.
    - exfalso. unfold calculateGeminiScore in Hc.
      destruct (selectModel c modelNames None); cbn [bind catch] in Hc;
        [|discriminate].
      rewrite Hp in Hc. discriminate. }
  assert (Hsl : scoreLead env lead offer = Throw (AppError "Failed to score lead" 500)).
  { unfold scoreLead. destruct (calculateRuleScore_returns lead offer) as [rr [-> _]].
    destruct Hai as [e ->]. reflexivity. }
  split; [assumption|].
  intros rest schedule Hs. unfold scoreLeads. cbn [get bind callMap].
  pose proof (promiseAll_outcome
                (List.map (fun l => scoreLead env l offer) (lead :: rest)) schedule) as H.
  destruct (promiseAll _ schedule) as [|results|e].
  - destruct H as [i [Hlen Hnot]]. rewrite List.length_map in Hlen.
    exfalso. apply Hnot. now apply Hs.
  - destruct H as [vals [Hmap _]]. cbn [List.map] in Hmap. rewrite Hsl in Hmap.
    destruct vals; discriminate.
  - reflexivity.
Qed.

Lemma scoreLead_needs_use_case_array_witness :
  scoreLead withProvider sampleLead
    (VObj [("name", VStr "AI Outreach Automation");
           ("ideal_use_cases", VStr "B2B SaaS mid-market")])
  = Throw (AppError "Failed to score lead" 500).
Proof.
  apply scoreLead_needs_use_case_array.
  intros useCases H. discriminate H.
Defined.

(** ** Replies in the requested format *)

Lemma search_first {R : Type} (m : string -> option R) (s : string) (r : R) :
  m s = Some r -> search m s = Some r.
Proof. intros H. destruct s; simpl; now rewrite H. Qed.

Lemma starGreedy_exact {R : Type} (k : string -> option R) (space rest : string) (r : R) :
  blank space = true -> startsNonSpace rest = true -> k rest = Some r ->
  starGreedy isWhiteSpace k (space ++ rest) = Some r.
Proof.
  intros Hb Hn Hk. induction space as [|c space IH].
  - simpl. destruct rest as [|c rest]; simpl; [assumption|].
    simpl in Hn. apply negb_true_iff in Hn. now rewrite Hn.
  - simpl in Hb. apply andb_true_iff in Hb as [Hc Hb].
    simpl. rewrite Hc, (IH Hb). reflexivity.
Qed.

Lemma upperChar_space (c : ascii) : isWhiteSpace c = true -> upperChar c = c.
Proof.
  destruct c as [b0 b1 b2 b3 b4 b5 b6 b7].
  destruct b0, b1, b2, b3, b4, b5, b6, b7; vm_compute; intros H;
    first [reflexivity | discriminate H].
Qed.

Lemma ciEq_transfer (p q c : ascii) :
  ciEq p c = true -> ciEq q c = ciEq q p.
Proof.
  unfold ciEq. intros H. apply Ascii.eqb_eq in H. now rewrite <- H.
Qed.

Lemma ciMatches_allChars (q : ascii) (p w : string) :
  ciMatches p w = true ->
  allChars (fun c => negb (ciEq q c)) p = true ->
  allChars (fun c => negb (ciEq q c)) w = true.
Proof.
  revert w. induction p as [|pc p IH]; intros [|c w] H Hp; try discriminate.
  - reflexivity.
  - simpl in H. apply andb_true_iff in H as [Hc Hw].
    simpl in Hp. apply andb_true_iff in Hp as [Hpc Hp].
    simpl. rewrite (ciEq_transfer pc q c Hc), Hpc. simpl. now apply IH.
Qed.

Lemma IntentWord_no_R (word : string) :
  IntentWord word -> allChars (fun c => negb (ciEq "R" c)) word = true.
Proof.
  intros [H | [H | H]]; eapply ciMatches_allChars; try eassumption; reflexivity.
Qed.

Lemma IntentWord_starts_with_letter (word rest : string) :
  IntentWord word -> startsNonSpace (word ++ rest) = true.
Proof.
  assert (Hgen : forall pc c, ciEq pc c = true -> isWhiteSpace (upperChar pc) = false ->
                              negb (isWhiteSpace c) = true).
  { intros pc c Hc Hp. apply negb_true_iff.
    destruct (isWhiteSpace c) eqn:E; [|reflexivity].
    unfold ciEq in Hc. apply Ascii.eqb_eq in Hc.
    rewrite (upperChar_space c E) in Hc. congruence. }
  intros [H | [H | H]]; destruct word as [|c w]; try discriminate;
    simpl in H; apply andb_true_iff in H as [Hc _];
    simpl; eapply Hgen; try eassumption; reflexivity.
Qed.

Lemma intentWord_exact (word rest : string) :
  IntentWord word -> intentWord (word ++ rest) = Some word.
Proof.
  unfold intentWord, orElse.
  assert (Hmiss : forall pc p c w (k : string -> string -> option string) q,
             ciEq q c = true -> ciEq pc q = false ->
             literal (String pc p) k (String c w) = None).
  { intros pc p c w k q Hq Hp. simpl.
    rewrite (ciEq_transfer q pc c Hq), Hp. reflexivity. }
  intros [H | [H | H]].
  - now rewrite (literal_complete _ _ _ _ H).
  - destruct word as [|c w] eqn:Ew; [discriminate|].
    pose proof H as H'. simpl in H'. apply andb_true_iff in H' as [Hc _].
    cbn [append]. rewrite (Hmiss "H"%char "igh" c (w ++ rest) _ "M"%char Hc eq_refl).
    change (String c (w ++ rest)) with (String c w ++ rest).
    now rewrite (literal_complete _ _ _ _ H).
  - destruct word as [|c w] eqn:Ew; [discriminate|].
    pose proof H as H'. simpl in H'. apply andb_true_iff in H' as [Hc _].
    cbn [append]. rewrite (Hmiss "H"%char "igh" c (w ++ rest) _ "L"%char Hc eq_refl).
    rewrite (Hmiss "M"%char "edium" c (w ++ rest) _ "L"%char Hc eq_refl).
    change (String c (w ++ rest)) with (String c w ++ rest).
    now rewrite (literal_complete _ _ _ _ H).
Qed.

Lemma matchIntent_format (word rest : string) :
  IntentWord word -> matchIntent ("INTENT: " ++ word ++ rest) = Some word.
Proof.
  intros Hw. unfold matchIntent. apply search_first.
  change ("INTENT: " ++ word ++ rest) with ("INTENT:" ++ " " ++ word ++ rest).
  rewrite (literal_complete "INTENT:" "INTENT:") by reflexivity.
  apply starGreedy_exact.
  - reflexivity.
  - now apply IntentWord_starts_with_letter.
  - now apply intentWord_exact.
Qed.

Lemma search_skip {R : Type} (p : string) (k : string -> string -> option R)
      (before s : string) :
  allChars (fun c => negb (ciEq "R" c)) before = true ->
  search (literal (String "R" p) k) (before ++ s) = search (literal (String "R" p) k) s.
Proof.
  induction before as [|c before IH]; intros H; [reflexivity|].
  simpl in H. apply andb_true_iff in H as [Hc Hb]. apply negb_true_iff in Hc.
  cbn [append search literal]. rewrite Hc. now apply IH.
Qed.

Lemma allChars_app (f : ascii -> bool) (a b : string) :
  allChars f (a ++ b) = (allChars f a && allChars f b)%bool.
Proof. induction a as [|c a IH]; simpl; [reflexivity|]. now rewrite IH, andb_assoc. Qed.

Lemma plusLazyFrom_exact (text acc : string) :
  oneLine text = true ->
  plusLazyFrom isDot atLineEnd acc text = Some (acc ++ text).
Proof.
  revert acc. induction text as [|c text IH]; intros acc H.
  - simpl. now rewrite append_empty_r.
  - simpl in H. apply andb_true_iff in H as [Hc Hl].
    cbn [plusLazyFrom]. unfold atLineEnd at 1. cbn [newlineOrEnd].
    assert (Hnl : Nat.eqb (code c) 10 = false).
    { unfold isDot, isLineTerminator in Hc.
      apply negb_true_iff, orb_false_iff in Hc. tauto. }
    rewrite Hnl, Hc, (IH _ Hl), append_assoc. reflexivity.
Qed.

Lemma trim_skip_space (c : ascii) (s : string) :
  isWhiteSpace c = true -> trim (String c s) = trim s.
Proof. intros H. unfold trim. simpl. now rewrite H. Qed.

(** What [\s*(.+?)(?:\n|$)] captures from one line of text: something that
    trims to the same as the line. *)
Lemma reasoning_body (s : string) :
  s <> "" -> oneLine s = true ->
  exists group,
    starGreedy isWhiteSpace (plusLazy isDot atLineEnd) s = Some group /\
    trim group = trim s.
Proof.
  induction s as [|c s IH]; intros Hne Hl; [congruence|].
  simpl in Hl. apply andb_true_iff in Hl as [Hc Hl].
  cbn [starGreedy]. destruct (isWhiteSpace c) eqn:Ec.
  - destruct s as [|d s].
    + exists (String c ""). split; [|reflexivity].
      cbn [starGreedy plusLazy]. rewrite Hc. reflexivity.
    + destruct (IH ltac:(discriminate) Hl) as [group [Hg Ht]].
      rewrite Hg. exists group. split; [reflexivity|].
      now rewrite (trim_skip_space c _ Ec).
  - exists (String c s). split; [|reflexivity].
    cbn [plusLazy]. rewrite Hc. now rewrite (plusLazyFrom_exact s _ Hl).
Qed.

Lemma matchReasoning_format (word text : string) :
  IntentWord word -> oneLine text = true ->
  exists group,
    matchReasoning ("INTENT: " ++ word ++ newline ++ "REASONING: " ++ text) = Some group /\
    trim group = trim text.
Proof.
  intros Hw Hl. unfold matchReasoning.
  fold atLineEnd.
  change (fun group rest : string => if newlineOrEnd rest then Some group else None)
    with atLineEnd.
  replace ("INTENT: " ++ word ++ newline ++ "REASONING: " ++ text)
    with (("INTENT: " ++ word ++ newline) ++ "REASONING: " ++ text)
    by (now rewrite !append_assoc).
  rewrite search_skip.
  2:{ rewrite !allChars_app, (IntentWord_no_R word Hw). reflexivity. }
  destruct (reasoning_body (" " ++ text)) as [group [Hg Ht]].
  { discriminate. }
  { simpl. exact Hl. }
  exists group. split.
  - apply search_first.
    change ("REASONING: " ++ text) with ("REASONING:" ++ " " ++ text).
    rewrite (literal_complete "REASONING:" "REASONING:") by reflexivity.
    exact Hg.
  - rewrite Ht. now apply trim_skip_space.
Qed.

(** X20.  A reply in the format the prompt asks for is read back as sent:
    for an intent word in any letter case and a reasoning of one line, the
    parser returns the intent with a capital first letter and the rest in
    lower case, and the reasoning without the white space around it. *)
Theorem parseAIResponse_reads_requested_format (word text : string) :
  IntentWord word -> oneLine text = true ->
  exists p,
    parseAIResponse ("INTENT: " ++ word ++ newline ++ "REASONING: " ++ text) = Ok p /\
    parsedReasoning p = trim text /\
    (ciMatches "High" word = true -> parsedIntent p = "High") /\
    (ciMatches "Medium" word = true -> parsedIntent p = "Medium") /\
    (ciMatches "Low" word = true -> parsedIntent p = "Low").
Proof.
  intros Hw Hl. eexists. split; [apply parseAIResponse_returns|].
  cbn [parsedReasoning parsedIntent].
  change (word ++ newline ++ "REASONING: " ++ text)
    with (word ++ (newline ++ "REASONING: " ++ text)).
  rewrite (matchIntent_format word _ Hw).
  destruct (matchReasoning_format word text Hw Hl) as [group [-> Ht]].
  split; [assumption|].
  repeat split; intros H; now rewrite (capitalise_ciMatches _ _ H).
Qed.

Lemma parseAIResponse_reads_requested_format_witness :
  exists p,
    parseAIResponse ("INTENT: " ++ "mEDIUM" ++ newline ++ "REASONING: "
                       ++ "  Mid-level role, adjacent industry.  ") = Ok p /\
    parsedReasoning p = "Mid-level role, adjacent industry." /\
    parsedIntent p = "Medium".
Proof.
  destruct (parseAIResponse_reads_requested_format
              "mEDIUM" "  Mid-level role, adjacent industry.  ")
    as (p & Hp & Hr & _ & Hm & _).
  - right. left. reflexivity.
  - reflexivity.
  - exists p. repeat split; [assumption | assumption | now apply Hm].
Defined.

(** ** Malformed fields in the rule layer *)

Lemma callTrim_non_string (v : JSValue) :
  (forall s, v <> VStr s) -> callTrim v = Throw TypeError.
Proof. intros H. destruct v; try reflexivity. now destruct (H s). Qed.

Lemma callToLowerCase_non_string (v : JSValue) :
  (forall s, v <> VStr s) -> callToLowerCase v = Throw TypeError.
Proof. intros H. destruct v; try reflexivity. now destruct (H s). Qed.

(** X10.  A field that holds something other than a string does not only
    zero its own sub-score: when the lead's role or name is a truthy value
    that is not a string, the whole breakdown is zero, whatever the other
    fields and the offer would have scored. *)
Theorem calculateRuleScore_zero_on_malformed (lead offer v : JSValue) :
  TruthyNonString v ->
  get lead "role" = Ok v \/ get lead "name" = Ok v ->
  calculateRuleScore lead offer = Ok zeroBreakdown.
Proof.
  intros [Ht Hs] [Hr | Hn]; unfold calculateRuleScore.
  - rewrite Hr. cbn [bind]. unfold scoreRoleRelevance.
    rewrite Ht, (callToLowerCase_non_string v Hs). reflexivity.
  - assert (Hc : scoreDataCompleteness lead = Throw TypeError).
    { unfold scoreDataCompleteness, RuleScoring.requiredFields. cbn [everyM].
      unfold fieldPresent at 1. rewrite Hn. cbn [bind].
      rewrite Ht, (callTrim_non_string v Hs). reflexivity. }
    destruct (get lead "role") as [role|e]; cbn [bind catch]; [|reflexivity].
    destruct (scoreRoleRelevance role) as [rs|e]; cbn [bind catch]; [|reflexivity].
    destruct (get lead "industry") as [industry|e]; cbn [bind catch]; [|reflexivity].
    destruct (get offer "ideal_use_cases") as [ucs|e]; cbn [bind catch]; [|reflexivity].
    destruct (scoreIndustryMatch industry ucs) as [ms|e]; cbn [bind catch]; [|reflexivity].
    rewrite Hc. reflexivity.
Qed.

Lemma calculateRuleScore_zero_on_malformed_witness :
  calculateRuleScore
    (VObj [("name", VNum 42); ("role", VStr "CEO"); ("company", VStr "FlowMetrics");
           ("industry", VStr "B2B SaaS"); ("location", VStr "Berlin")])
    sampleOffer
  = Ok zeroBreakdown.
Proof.
  apply (calculateRuleScore_zero_on_malformed _ _ (VNum 42)).
  - split; [reflexivity | intros s H; discriminate H].
  - right. reflexivity.
Defined.
